(** * Live client migration: the output gate of [migrate.c]

    A shallow embedding of [src/ircd/migrate.c] (with the [struct Migration]
    of [src/include/migrate.h]) and the properties of [migrate_skip_output]
    and [migration_resume].

    C pointers are modelled as optional addresses into two stores, one for
    [struct Client] and one for [struct Migration]; [NULL] is [None].  The
    functions run in a small state-and-error monad over the stores, so that
    "nothing is written", "a NULL or dangling pointer is dereferenced" and
    "a loop does not stop" are all things the model can say. *)

From stdpp Require Import gmap list.

(** ** Data model *)

Abbreviation addr := positive (only parsing).

(** A pointer: [None] is [NULL], [Some a] points at address [a]. *)
Abbreviation ptr := (option positive) (only parsing).

(** [struct Migration] of migrate.h. *)
Record Migration := mkMigration {
  client_p : ptr;
  destination_p : ptr;
  furthest_ack_p : ptr;
  resume_token : Z;
  confirm_token : Z
}.

(** The part of [struct Client] that migrate.c reads.

    Modelled from the spec: client.h is absent; [MyConnect] stands for the
    macro [MyConnect(x)], the connection layer's "locally-connected(client)"
    predicate of the spec, kept as the boolean it evaluates to. *)
Record Client := mkClient {
  servptr : ptr;
  migration : ptr;
  MyConnect : bool
}.

(** The program state: the address of the global [me] and the two stores. *)
Record World := mkWorld {
  me : addr;
  clients : gmap positive Client;
  migrations : gmap positive Migration
}.

(** ** The monad the code runs in *)

Inductive outcome (A : Type) : Type :=
| Ret (a : A)      (* the function returned [a] *)
| Fault            (* a NULL or dangling pointer was dereferenced *)
| OutOfFuel.       (* a loop was cut off by the model's iteration bound *)
Arguments Ret {A} a.
Arguments Fault {A}.
Arguments OutOfFuel {A}.

Definition M (A : Type) : Type := World → outcome A * World.

Definition ret {A} (a : A) : M A := λ w, (Ret a, w).

Definition bind {A B} (m : M A) (k : A → M B) : M B := λ w,
  match m w with
  | (Ret a, w') => k a w'
  | (Fault, w') => (Fault, w')
  | (OutOfFuel, w') => (OutOfFuel, w')
  end.

Notation "'let*' x ':=' m 'in' k" := (bind m (λ x, k))
  (at level 10, x name, m at level 100, k at level 200).

Definition fault {A} : M A := λ w, (Fault, w).
Definition out_of_fuel {A} : M A := λ w, (OutOfFuel, w).

(** [*p] for a [struct Client *p]. *)
Definition load_client (p : ptr) : M Client := λ w,
  match p with
  | None => (Fault, w)
  | Some a =>
      match clients w !! a with
      | Some c => (Ret c, w)
      | None => (Fault, w)
      end
  end.

(** [*p] for a [struct Migration *p]. *)
Definition load_migration (p : ptr) : M Migration := λ w,
  match p with
  | None => (Fault, w)
  | Some a =>
      match migrations w !! a with
      | Some m => (Ret m, w)
      | None => (Fault, w)
      end
  end.

(** [&me]. *)
Definition addr_of_me : M ptr := λ w, (Ret (Some (me w)), w).

(** [!p] and [p == q] on pointers. *)
Definition is_null (p : ptr) : bool :=
  match p with None => true | Some _ => false end.

Definition ptr_eqb (p q : ptr) : bool := bool_decide (p = q).

(** What the caller sees of a run: the outcome, and the state left behind. *)
Definition result_of {A} (m : M A) (w : World) : outcome A := (m w).1.
Definition state_after {A} (m : M A) (w : World) : World := (m w).2.

(** ** migrate.c *)

(** [init_migrate]: nothing yet. *)
Definition init_migrate : M unit := ret tt.

(** [find_migration]: a stub that finds nothing. *)
Definition find_migration (resume_token : Z) : M ptr := ret None.

(** [migration_resume]: the guard, then an empty body. *)
Definition migration_resume (client_p migrant_p : ptr) : M unit :=
  if is_null client_p then ret tt
  else if is_null migrant_p then ret tt
  else
    let* client := load_client client_p in
    if is_null (migration client) then ret tt
    else ret tt.

(** Step 1 of [migrate_skip_output], the loop of lines 114-125: either the
    function returns false from inside the loop ([LogicError]) or the loop
    breaks with [next_ack_p] set. *)
Inductive step1 : Type :=
| LogicError
| NextAck (next_ack_p : ptr).

Fixpoint find_next_ack (fuel : nat) (mig : Migration) (next_ack_p : ptr)
  : M step1 :=
  match fuel with
  | O => out_of_fuel
  | S fuel' =>
      let* me_p := addr_of_me in
      if ptr_eqb next_ack_p me_p then ret LogicError
      else
        let* next_ack := load_client next_ack_p in
        if ptr_eqb (servptr next_ack) (furthest_ack_p mig)
        then ret (NextAck next_ack_p)
        else find_next_ack fuel' mig (servptr next_ack)
  end.

(** Step 2, the loop of lines 128-132 and the final [return true]. *)
Fixpoint source_walk (fuel : nat) (next_ack_p cursor_p : ptr) : M bool :=
  match fuel with
  | O => out_of_fuel
  | S fuel' =>
      let* me_p := addr_of_me in
      if ptr_eqb cursor_p me_p then ret true
      else if ptr_eqb cursor_p next_ack_p then ret false
      else
        let* cursor := load_client cursor_p in
        source_walk fuel' next_ack_p (servptr cursor)
  end.

(** [migrate_skip_output]; [fuel] bounds the iterations of each loop. *)
Definition migrate_skip_output (fuel : nat) (target_p source_p : ptr)
  : M bool :=
  if is_null target_p then ret false
  else if is_null source_p then ret false
  else
    let* target := load_client target_p in
    if is_null (migration target) then ret false
    else
      let* mig := load_migration (migration target) in
      let* me_p := addr_of_me in
      if ptr_eqb (destination_p mig) me_p then ret (negb (MyConnect target))
      else if is_null (furthest_ack_p mig) then ret false
      else if ptr_eqb (furthest_ack_p mig) (destination_p mig) then ret true
      else
        let* found := find_next_ack fuel mig (destination_p mig) in
        match found with
        | LogicError => ret false
        | NextAck next_ack_p => source_walk fuel next_ack_p source_p
        end.

(** ** The tree, as the claims speak of it *)

(** The parent of a node: its [servptr], when the node is in the store. *)
Definition parent (w : World) (a : addr) : ptr :=
  c ← clients w !! a; servptr c.

(** The parent-walk from [a] up to the local node: the nodes visited, [a]
    first, the local node left out. [None] when [me] is not reached within
    [fuel] steps or the chain breaks. *)
Fixpoint path_to_me (fuel : nat) (w : World) (a : addr) : option (list addr) :=
  match fuel with
  | O => None
  | S fuel' =>
      if decide (a = me w) then Some []
      else p ← parent w a; l ← path_to_me fuel' w p; Some (a :: l)
  end.

(** The client behind [target_p] and its migration record, when both are
    there. *)
Definition active_migration (w : World) (target_p : ptr)
  : option (Client * Migration) :=
  t ← target_p; c ← clients w !! t; m ← migration c;
  mig ← migrations w !! m; Some (c, mig).

(** The first node of a walk whose parent is [f]: what the loop of step 1
    looks for on the walk from the destination. *)
Fixpoint first_child_of (w : World) (f : ptr) (l : list addr) : option addr :=
  match l with
  | [] => None
  | x :: l' =>
      if decide (parent w x = f) then Some x else first_child_of w f l'
  end.

(** Whether the node a pointer points at is on a walk. *)
Definition on_walk (p : ptr) (l : list addr) : bool :=
  match p with
  | Some n => bool_decide (n ∈ l)
  | None => false
  end.

(** The local node is its own parent, and from every node in the store the
    parent chain reaches the local node in finitely many steps. *)
Definition rooted_tree (w : World) : Prop :=
  parent w (me w) = Some (me w) ∧
  ∀ a, is_Some (clients w !! a) → ∃ k, is_Some (path_to_me k w a).

(** What C takes for granted of the pointers stored in the records: a
    client's [migration] is NULL or points at a record, and a record's
    [destination_p] points at a node. *)
Definition valid_pointers (w : World) : Prop :=
  (∀ a c m, clients w !! a = Some c → migration c = Some m →
            is_Some (migrations w !! m)) ∧
  (∀ m mig, migrations w !! m = Some mig →
            ∃ d, destination_p mig = Some d ∧ is_Some (clients w !! d)).

(** An argument is NULL or points at a client. *)
Definition valid_arg (w : World) (p : ptr) : Prop :=
  ∀ a, p = Some a → is_Some (clients w !! a).

(** ** Effects and termination, as predicates on runs *)

(** A computation that leaves the state as it found it. *)
Definition read_only {A} (m : M A) : Prop := ∀ w, state_after m w = w.

(** A run that stops, by returning or by faulting, with the same outcome
    and an untouched state for every iteration bound from some point on. *)
Definition halts {A} (run : nat → M A) (w : World) : Prop :=
  ∃ n o, o ≠ OutOfFuel ∧ ∀ fuel, n ≤ fuel → run fuel w = (o, w).

(** A run that returns a value, in the same way. *)
Definition returns_eventually {A} (run : nat → M A) (w : World) : Prop :=
  ∃ n a, ∀ fuel, n ≤ fuel → run fuel w = (Ret a, w).

(** ** The spec's scenario tree

<<
      ME --- A --- B --- DEST
      | \          |
      Y  T         X
>>
    [T] is the migrating user, connected to [ME]; [X] hangs off [B] and
    [Y] off [ME]. *)
Module Scenario.

Definition ME : addr := 1%positive.
Definition A : addr := 2%positive.
Definition B : addr := 3%positive.
Definition DEST : addr := 4%positive.
Definition X : addr := 5%positive.
Definition Y : addr := 6%positive.
Definition T : addr := 7%positive.
Definition MIG : addr := 1%positive.

Definition node (up : addr) : Client := mkClient (Some up) None false.

Definition user (up : addr) (mig : ptr) (connected : bool) : Client :=
  mkClient (Some up) mig connected.

Definition record (furthest : ptr) : Migration :=
  mkMigration (Some T) (Some DEST) furthest 17 42.

(** The migrating user as the origin server holds it. *)
Definition migrant : Client := user ME (Some MIG) true.

Definition tree (mig : ptr) : gmap positive Client :=
  <[ME := node ME]> (<[A := node ME]> (<[B := node A]> (<[DEST := node B]>
  (<[X := node B]> (<[Y := node ME]> (<[T := user ME mig true]> ∅)))))).

(** The view of the origin server [ME], with the flip acked up to
    [furthest]. *)
Definition world (furthest : ptr) : World :=
  mkWorld ME (tree (Some MIG)) {[ MIG := record furthest ]}.

(** The same tree without a migration. *)
Definition idle : World := mkWorld ME (tree None) ∅.

(** The view of the destination: the same tree seen from [DEST], every
    [servptr] pointing one hop closer to [DEST]. *)
Definition tree_at_dest (connected : bool) : gmap positive Client :=
  <[DEST := node DEST]> (<[B := node DEST]> (<[A := node B]>
  (<[ME := node A]> (<[X := node B]> (<[Y := node ME]>
  (<[T := user DEST (Some MIG) connected]> ∅)))))).

Definition world_at_dest (connected : bool) (furthest : ptr) : World :=
  mkWorld DEST (tree_at_dest connected) {[ MIG := record furthest ]}.

End Scenario.

(** ** The algorithm of migrate.h, and walks that go wrong *)

(** The part of a walk that starts at [f]; empty when [f] is not on it. *)
Fixpoint from_node (f : addr) (l : list addr) : list addr :=
  match l with
  | [] => []
  | x :: l' => if decide (x = f) then x :: l' else from_node f l'
  end.

(** The direct-path nodes that have seen the flip, as migrate.h reads them
    off [furthest_ack_p]: none while the pointer is NULL ("we haven't even
    sent out the flip yet"); otherwise the local node, which sent it, and
    the nodes of the direct path from the local node up to [furthest_ack_p].
    [ld] is the walk from the destination. *)
Definition acked_nodes (w : World) (furthest : ptr) (ld : list addr)
  : list addr :=
  match furthest with
  | None => []
  | Some f => from_node f ld ++ [me w]
  end.

(** The first node of the walk [ls] that is on the walk [ld]. *)
Fixpoint first_on (ld ls : list addr) : option addr :=
  match ls with
  | [] => None
  | x :: ls' => if decide (x ∈ ld) then Some x else first_on ld ls'
  end.

(** "Any message will be seen by one of the direct path nodes first": the
    first node of the source's walk [ls] that is on the direct path, and the
    local node when the walk meets the direct path only there. *)
Definition entry_node (w : World) (ld ls : list addr) : addr :=
  default (me w) (first_on ld ls).

(** Every node of [C] has its parent in [C]: a parent chain that starts in
    [C] never leaves it. *)
Definition stays_in (w : World) (C : list addr) : bool :=
  forallb (λ x, match parent w x with
                | Some p => bool_decide (p ∈ C)
                | None => false
                end) C.

(** Following [servptr] from [a] through the nodes [l] in turn: the node
    reached, [None] when [l] is not what the pointers say. *)
Fixpoint follow (w : World) (a : addr) (l : list addr) : option addr :=
  match l with
  | [] => Some a
  | y :: l' => if decide (parent w a = Some y) then follow w y l' else None
  end.

(** Worlds outside the precondition of the walks: the scenario tree with two
    servers [L1] and [L2] that are each other's parent, and a client [ORPHAN]
    behind [X] whose [servptr] is NULL. *)
Module Faulty.

Definition L1 : addr := 8%positive.
Definition L2 : addr := 9%positive.
Definition ORPHAN : addr := 10%positive.
Definition BEHIND : addr := 11%positive.

Definition tree : gmap positive Client :=
  <[L1 := Scenario.node L2]> (<[L2 := Scenario.node L1]>
  (<[ORPHAN := mkClient None None false]>
  (<[BEHIND := Scenario.node ORPHAN]>
  (Scenario.tree (Some Scenario.MIG))))).

Definition world (furthest : ptr) : World :=
  mkWorld Scenario.ME tree {[ Scenario.MIG := Scenario.record furthest ]}.

(** The same, with the destination of the migration inside the loop. *)
Definition lost_destination (furthest : ptr) : World :=
  mkWorld Scenario.ME tree
    {[ Scenario.MIG :=
         mkMigration (Some Scenario.T) (Some L1) furthest 17 42 ]}.

End Faulty.

(** ** Reading the stores *)

Section ReadOnly.
Context {A : Type}.

Lemma read_only_ret (a : A) : read_only (ret a).
Proof. by intros w. Qed.

Lemma read_only_fault : read_only (@fault A).
Proof. by intros w. Qed.

Lemma read_only_out_of_fuel : read_only (@out_of_fuel A).
Proof. by intros w. Qed.

Lemma read_only_bind {B} (m : M B) (k : B → M A) :
  read_only m → (∀ b, read_only (k b)) → read_only (bind m k).
Proof.
  intros Hm Hk w. unfold state_after, bind.
  specialize (Hm w). unfold state_after in Hm.
  destruct (m w) as [[b| |] w']; simpl in *; subst; try done.
  apply Hk.
Qed.

Lemma read_only_if (c : bool) (m1 m2 : M A) :
  read_only m1 → read_only m2 → read_only (if c then m1 else m2).
Proof. by destruct c. Qed.
End ReadOnly.

Lemma read_only_load_client p : read_only (load_client p).
Proof.
  intros w. unfold state_after, load_client.
  destruct p as [a|]; [destruct (clients w !! a)|]; done.
Qed.

Lemma read_only_load_migration p : read_only (load_migration p).
Proof.
  intros w. unfold state_after, load_migration.
  destruct p as [a|]; [destruct (migrations w !! a)|]; done.
Qed.

Lemma read_only_addr_of_me : read_only addr_of_me.
Proof. by intros w. Qed.

Create HintDb read_only discriminated.
#[local] Hint Resolve
  read_only_ret read_only_fault read_only_out_of_fuel read_only_if
  read_only_load_client read_only_load_migration read_only_addr_of_me
  : read_only.

Ltac read_only_step :=
  first
    [ apply read_only_bind; [| intros ?]
    | apply read_only_if
    | solve [auto with read_only] ].

Lemma read_only_find_next_ack fuel mig p : read_only (find_next_ack fuel mig p).
Proof.
  revert p. induction fuel as [|fuel IH]; intros p; simpl.
  - apply read_only_out_of_fuel.
  - repeat read_only_step.
Qed.

Lemma read_only_source_walk fuel n p : read_only (source_walk fuel n p).
Proof.
  revert p. induction fuel as [|fuel IH]; intros p; simpl.
  - apply read_only_out_of_fuel.
  - repeat read_only_step.
Qed.

Lemma read_only_migrate_skip_output fuel target_p source_p :
  read_only (migrate_skip_output fuel target_p source_p).
Proof.
  unfold migrate_skip_output. repeat read_only_step.
  - apply read_only_find_next_ack.
  - match goal with |- read_only (match ?found with _ => _ end) =>
      destruct found end;
      [apply read_only_ret | apply read_only_source_walk].
Qed.


(** A run, outcome and state together. *)
Lemma run_read_only {A} (m : M A) w :
  read_only m → m w = (result_of m w, w).
Proof.
  intros H. specialize (H w). unfold state_after, result_of in *.
  destruct (m w); simpl in *; by subst.
Qed.

(** ** Parent walks *)

Section Paths.
Variable w : World.

Lemma path_to_me_inv fuel a l :
  path_to_me fuel w a = Some l →
  (a = me w ∧ l = []) ∨
  (a ≠ me w ∧ ∃ fuel' p l',
      fuel = S fuel' ∧ parent w a = Some p ∧
      path_to_me fuel' w p = Some l' ∧ l = a :: l').
Proof.
  destruct fuel as [|fuel']; simpl; [done|].
  destruct (decide (a = me w)) as [->|Hne].
  - intros [= <-]. by left.
  - intros H. right. split; [done|].
    destruct (parent w a) as [p|] eqn:Hp; simpl in H; [|done].
    destruct (path_to_me fuel' w p) as [l'|] eqn:Hl; simpl in H; [|done].
    injection H as <-. by exists fuel', p, l'.
Qed.

Lemma path_to_me_length fuel a l :
  path_to_me fuel w a = Some l → length l < fuel.
Proof.
  revert a l. induction fuel as [|fuel IH]; intros a l H; [done|].
  apply path_to_me_inv in H
    as [[_ ->]|[_ (f' & p & l' & [= <-] & _ & Hl & ->)]].
  - simpl. lia.
  - apply IH in Hl. simpl. lia.
Qed.

(** The walk does not depend on the bound, once the bound is large
    enough. *)
Lemma path_to_me_fuel fuel fuel' a l :
  path_to_me fuel w a = Some l → length l < fuel' →
  path_to_me fuel' w a = Some l.
Proof.
  revert fuel' a l.
  induction fuel as [|fuel IH]; intros fuel' a l H Hlt; [done|].
  apply path_to_me_inv in H
    as [[-> ->]|[Hne (f' & p & l' & [= <-] & Hp & Hl & ->)]].
  - destruct fuel'; [simpl in Hlt; lia|]. simpl. by rewrite decide_True.
  - destruct fuel' as [|fuel']; [simpl in Hlt; lia|]. simpl in *.
    rewrite decide_False by done. rewrite Hp. simpl.
    rewrite (IH fuel' p l') by (done || lia). done.
Qed.

Lemma path_to_me_det fuel fuel' a l l' :
  path_to_me fuel w a = Some l → path_to_me fuel' w a = Some l' → l = l'.
Proof.
  intros H H'. pose proof (path_to_me_length _ _ _ H').
  pose proof (path_to_me_fuel _ (fuel + fuel') _ _ H) as H1.
  pose proof (path_to_me_fuel _ (fuel + fuel') _ _ H') as H2.
  pose proof (path_to_me_length _ _ _ H).
  rewrite H1 in H2 by lia. injection H2; [done|lia].
Qed.

(** The local node ends every walk and is on none. *)
Lemma me_not_on_path fuel a l :
  path_to_me fuel w a = Some l → me w ∉ l.
Proof.
  revert a l. induction fuel as [|fuel IH]; intros a l H; [done|].
  apply path_to_me_inv in H
    as [[_ ->]|[Hne (f' & p & l' & [= <-] & _ & Hl & ->)]].
  - apply not_elem_of_nil.
  - apply not_elem_of_cons. split; [done|]. by eapply IH.
Qed.

(** From a node on a walk, the rest of that walk is the node's own walk. *)
Lemma path_to_me_from fuel a l y :
  path_to_me fuel w a = Some l → y ∈ l →
  ∃ l', path_to_me fuel w y = Some (y :: l') ∧ (y :: l') `suffix_of` l.
Proof.
  revert a l. induction fuel as [|fuel IH]; intros a l H Hy; [done|].
  pose proof H as H0.
  apply path_to_me_inv in H
    as [[_ ->]|[Hne (f' & p & l' & [= <-] & Hp & Hl & ->)]].
  - by apply elem_of_nil in Hy.
  - apply elem_of_cons in Hy as [->|Hy].
    + exists l'. split; [done|]. done.
    + destruct (IH _ _ Hl Hy) as (l'' & Hl'' & Hsuf).
      exists l''. split.
      * eapply path_to_me_fuel; [done|].
        apply path_to_me_length in Hl''. lia.
      * by apply suffix_cons_r.
Qed.

(** On a walk, at most one node has a given parent: the walk has no
    repeated node. *)
Lemma first_child_of_unique fuel d l n f :
  path_to_me fuel w d = Some l → n ∈ l → parent w n = f →
  first_child_of w f l = Some n.
Proof.
  revert d l. induction fuel as [|fuel IH]; intros d l H Hn Hf; [done|].
  apply path_to_me_inv in H
    as [[_ ->]|[Hne (f' & p & l' & [= <-] & Hp & Hl & ->)]].
  - by apply elem_of_nil in Hn.
  - simpl. destruct (decide (parent w d = f)) as [Hd|Hd].
    + f_equal. apply elem_of_cons in Hn as [->|Hn]; [done|]. exfalso.
      destruct (path_to_me_from _ _ _ _ Hl Hn) as (l'' & Hl'' & Hsuf).
      apply path_to_me_inv in Hl''
        as [[_ [=]]|[_ (f'' & p' & k & -> & Hp' & Hk & [= ->])]].
      assert (p' = p) as -> by congruence.
      rewrite (path_to_me_det _ _ _ _ _ Hk Hl) in Hsuf.
      apply suffix_length in Hsuf. simpl in Hsuf. lia.
    + apply elem_of_cons in Hn as [->|Hn]; [done|]. by eapply IH.
Qed.

Lemma first_child_of_Some f l n :
  first_child_of w f l = Some n → n ∈ l ∧ parent w n = f.
Proof.
  induction l as [|x l IH]; simpl; [done|].
  destruct (decide (parent w x = f)) as [Hx|Hx].
  - intros [= <-]. split; [left|done].
  - intros H. destruct (IH H). split; [by right|done].
Qed.

Lemma first_child_of_None f l :
  first_child_of w f l = None ↔ ∀ x, x ∈ l → parent w x ≠ f.
Proof.
  induction l as [|x l IH]; simpl.
  - split; [|done]. intros _ x Hx. by apply elem_of_nil in Hx.
  - destruct (decide (parent w x = f)) as [Hx|Hx].
    + split; [done|]. intros H. exfalso. apply (H x); [left|done].
    + rewrite IH. split.
      * intros H y Hy. apply elem_of_cons in Hy as [->|Hy]; auto.
      * intros H y Hy. apply H. by right.
Qed.

(** A node of a walk other than its start is the parent of a node of the
    walk. *)
Lemma path_to_me_child fuel d l f :
  path_to_me fuel w d = Some l → f ∈ l → f ≠ d →
  ∃ n, n ∈ l ∧ parent w n = Some f.
Proof.
  revert d l. induction fuel as [|fuel IH]; intros d l H Hf Hne; [done|].
  apply path_to_me_inv in H
    as [[_ ->]|[_ (f' & p & l' & [= <-] & Hp & Hl & ->)]].
  - by apply elem_of_nil in Hf.
  - apply elem_of_cons in Hf as [->|Hf]; [done|].
    destruct (decide (f = p)) as [->|Hfp].
    + exists d. split; [left|done].
    + destruct (IH _ _ Hl Hf Hfp) as (n & Hn & Hpn).
      exists n. split; [by right|done].
Qed.

(** The last node of a walk is a child of the local node. *)
Lemma path_to_me_last fuel d l :
  path_to_me fuel w d = Some l → d ≠ me w →
  ∃ n, n ∈ l ∧ parent w n = Some (me w).
Proof.
  revert d l. induction fuel as [|fuel IH]; intros d l H Hne; [done|].
  apply path_to_me_inv in H
    as [[? _]|[_ (f' & p & l' & [= <-] & Hp & Hl & ->)]];
    [done|].
  destruct (decide (p = me w)) as [->|Hp'].
  - exists d. split; [left|done].
  - destruct (IH _ _ Hl Hp') as (n & Hn & Hpn).
    exists n. split; [by right|done].
Qed.
End Paths.

(** ** The two loops, on a well-formed walk *)

Section Loops.
Variable w : World.

Lemma load_client_parent a p :
  parent w a = Some p →
  ∃ c, load_client (Some a) w = (Ret c, w) ∧ servptr c = Some p ∧
       parent w a = servptr c.
Proof.
  unfold parent, load_client. destruct (clients w !! a) as [c|]; [|done].
  simpl. intros H. by exists c.
Qed.

(** Step 1 stops at the first node of the destination's walk whose parent
    is [furthest_ack_p], and gives up at the local node otherwise. *)
Lemma find_next_ack_on_path k fuel mig d l :
  path_to_me k w d = Some l → length l < fuel →
  find_next_ack fuel mig (Some d) w =
    (Ret (match first_child_of w (furthest_ack_p mig) l with
          | Some n => NextAck (Some n)
          | None => LogicError
          end), w).
Proof.
  revert fuel d l. induction k as [|k IH]; intros fuel d l H Hlt; [done|].
  destruct fuel as [|fuel]; [lia|].
  apply path_to_me_inv in H
    as [[-> ->]|[Hne (k' & p & l' & [= <-] & Hp & Hl & ->)]].
  - simpl. unfold bind, addr_of_me, ptr_eqb. by rewrite bool_decide_eq_true_2.
  - simpl in *. unfold bind at 1, addr_of_me, ptr_eqb at 1.
    rewrite bool_decide_eq_false_2 by congruence.
    destruct (load_client_parent _ _ Hp) as (c & Hc & Hs & Hpc).
    unfold bind at 1. rewrite Hc. unfold ptr_eqb. rewrite Hpc.
    destruct (decide (servptr c = furthest_ack_p mig)) as [Heq|Hneq].
    + by rewrite bool_decide_eq_true_2.
    + rewrite bool_decide_eq_false_2 by done. rewrite Hs.
      apply (IH fuel p l'); [done|lia].
Qed.

(** Step 2 answers whether [next_ack_p] is on the source's walk. *)
Lemma source_walk_on_path k fuel next_ack_p s l :
  path_to_me k w s = Some l → length l < fuel →
  source_walk fuel next_ack_p (Some s) w =
    (Ret (negb (on_walk next_ack_p l)), w).
Proof.
  revert fuel s l. induction k as [|k IH]; intros fuel s l H Hlt; [done|].
  destruct fuel as [|fuel]; [lia|].
  apply path_to_me_inv in H
    as [[-> ->]|[Hne (k' & p & l' & [= <-] & Hp & Hl & ->)]].
  - simpl. unfold bind, addr_of_me, ptr_eqb. rewrite bool_decide_eq_true_2 by done.
    by destruct next_ack_p.
  - simpl in *. unfold bind at 1, addr_of_me, ptr_eqb.
    rewrite bool_decide_eq_false_2 by congruence.
    destruct (decide (Some s = next_ack_p)) as [<-|Hsn].
    + rewrite bool_decide_eq_true_2 by done. simpl.
      rewrite bool_decide_eq_true_2; [done|left].
    + rewrite bool_decide_eq_false_2 by done.
      destruct (load_client_parent _ _ Hp) as (c & Hc & Hs & _).
      unfold bind. rewrite Hc, Hs.
      rewrite (IH fuel p l') by (done || lia).
      do 3 f_equal. destruct next_ack_p as [n|]; [|done]. simpl.
      apply bool_decide_ext. rewrite elem_of_cons.
      split; [by right|]. intros [->|?]; [congruence|done].
Qed.

(** The prologue of [migrate_skip_output], up to the general case. *)
Lemma active_migration_inv target_p target mig :
  active_migration w target_p = Some (target, mig) →
  ∃ t m, target_p = Some t ∧ clients w !! t = Some target ∧
         migration target = Some m ∧ migrations w !! m = Some mig.
Proof.
  unfold active_migration. intros H.
  destruct target_p as [t|]; simpl in H; [|done].
  destruct (clients w !! t) as [c|] eqn:Hc; simpl in H; [|done].
  destruct (migration c) as [m|] eqn:Hm; simpl in H; [|done].
  destruct (migrations w !! m) as [g|] eqn:Hg; simpl in H; [|done].
  injection H as <- <-. by exists t, m.
Qed.

Lemma skip_output_prologue fuel target_p target mig s :
  active_migration w target_p = Some (target, mig) →
  migrate_skip_output fuel target_p (Some s) w =
    (if ptr_eqb (destination_p mig) (Some (me w))
     then ret (negb (MyConnect target))
     else if is_null (furthest_ack_p mig) then ret false
     else if ptr_eqb (furthest_ack_p mig) (destination_p mig) then ret true
     else
       let* found := find_next_ack fuel mig (destination_p mig) in
       match found with
       | LogicError => ret false
       | NextAck next_ack_p => source_walk fuel next_ack_p (Some s)
       end) w.
Proof.
  intros (t & m & -> & Hc & Hm & Hg)%active_migration_inv.
  unfold migrate_skip_output. simpl.
  unfold bind at 1, load_client. rewrite Hc, Hm. simpl.
  unfold bind at 1, load_migration. rewrite Hg.
  by unfold bind at 1, addr_of_me.
Qed.

(** The general case (step 5 of the spec's table), for any acked node
    other than the destination. *)
Lemma skip_output_general fuel target_p target mig d f s kd ld ks ls :
  active_migration w target_p = Some (target, mig) →
  destination_p mig = Some d → d ≠ me w →
  furthest_ack_p mig = Some f → f ≠ d →
  path_to_me kd w d = Some ld → path_to_me ks w s = Some ls →
  length ld < fuel → length ls < fuel →
  migrate_skip_output fuel target_p (Some s) w =
    (Ret (match first_child_of w (Some f) ld with
          | Some n => negb (bool_decide (n ∈ ls))
          | None => false
          end), w).
Proof.
  intros Hact Hd Hdme Hf Hfd Hld Hls Hfd' Hfs.
  rewrite (skip_output_prologue _ _ _ _ _ Hact). rewrite Hd, Hf. simpl.
  unfold ptr_eqb. rewrite !bool_decide_eq_false_2 by congruence.
  unfold bind. rewrite (find_next_ack_on_path _ _ _ _ _ Hld Hfd'), Hf.
  destruct (first_child_of w (Some f) ld) as [n|]; [|done].
  by rewrite (source_walk_on_path ks _ _ _ _ Hls Hfs).
Qed.
End Loops.

(** ** Both loops stop on a rooted tree *)

Section Halting.
Variable w : World.
Hypothesis Htree : rooted_tree w.

Lemma returns_halts {A} (run : nat → M A) :
  returns_eventually run w → halts run w.
Proof. intros (n & a & Hrun). by exists n, (Ret a). Qed.

Lemma find_next_ack_returns mig d :
  is_Some (clients w !! d) →
  returns_eventually (λ fuel, find_next_ack fuel mig (Some d)) w.
Proof.
  intros Hd. destruct Htree as [_ Hreach].
  destruct (Hreach d Hd) as (k & l & Hl).
  exists (S (length l)). eexists. intros fuel Hfuel.
  apply (find_next_ack_on_path w k); [done|lia].
Qed.

Lemma source_walk_returns next_ack_p s :
  is_Some (clients w !! s) →
  returns_eventually (λ fuel, source_walk fuel next_ack_p (Some s)) w.
Proof.
  intros Hs. destruct Htree as [_ Hreach].
  destruct (Hreach s Hs) as (k & l & Hl).
  exists (S (length l)). eexists. intros fuel Hfuel.
  apply (source_walk_on_path w k); [done|lia].
Qed.

(** From a NULL or dangling pointer the first iteration already stops: at
    the local node, or on the dereference. *)
Lemma find_next_ack_halts mig p :
  halts (λ fuel, find_next_ack fuel mig p) w.
Proof.
  destruct p as [d|].
  - destruct (clients w !! d) as [c|] eqn:Hd.
    { by apply returns_halts, find_next_ack_returns. }
    destruct (decide (d = me w)) as [->|Hne].
    + exists 1, (Ret LogicError). split; [done|].
      intros [|fuel] ?; [lia|]. simpl.
      unfold bind, addr_of_me, ptr_eqb. by rewrite bool_decide_eq_true_2.
    + exists 1, Fault. split; [done|].
      intros [|fuel] ?; [lia|]. simpl.
      unfold bind, addr_of_me, ptr_eqb, load_client.
      rewrite bool_decide_eq_false_2 by congruence. by rewrite Hd.
  - exists 1, Fault. split; [done|]. by intros [|fuel] ?; [lia|].
Qed.

Lemma source_walk_halts next_ack_p p :
  halts (λ fuel, source_walk fuel next_ack_p p) w.
Proof.
  destruct p as [s|].
  - destruct (clients w !! s) as [c|] eqn:Hs.
    { by apply returns_halts, source_walk_returns. }
    destruct (decide (s = me w)) as [->|Hne].
    + exists 1, (Ret true). split; [done|].
      intros [|fuel] ?; [lia|]. simpl.
      unfold bind, addr_of_me, ptr_eqb. by rewrite bool_decide_eq_true_2.
    + destruct (decide (Some s = next_ack_p)) as [Heq|Hneq].
      * exists 1, (Ret false). split; [done|].
        intros [|fuel] ?; [lia|]. simpl.
        unfold bind, addr_of_me, ptr_eqb.
        rewrite bool_decide_eq_false_2 by congruence.
        by rewrite bool_decide_eq_true_2.
      * exists 1, Fault. split; [done|].
        intros [|fuel] ?; [lia|]. simpl.
        unfold bind, addr_of_me, ptr_eqb, load_client.
        rewrite !bool_decide_eq_false_2 by congruence. by rewrite Hs.
  - exists 1. destruct next_ack_p as [n|].
    + exists Fault. split; [done|]. by intros [|fuel] ?; [lia|].
    + exists (Ret false). split; [done|]. by intros [|fuel] ?; [lia|].
Qed.

Lemma migrate_skip_output_halts target_p source_p :
  halts (λ fuel, migrate_skip_output fuel target_p source_p) w.
Proof.
  unfold halts, migrate_skip_output.
  destruct target_p as [t|]; simpl; [|by exists 0, (Ret false)].
  destruct source_p as [s|]; simpl; [|by exists 0, (Ret false)].
  unfold bind at 1, load_client.
  destruct (clients w !! t) as [c|]; [|by exists 0, Fault].
  destruct (migration c) as [m|]; simpl; [|by exists 0, (Ret false)].
  unfold bind at 1, load_migration.
  destruct (migrations w !! m) as [mig|]; [|by exists 0, Fault].
  unfold bind at 1, addr_of_me.
  destruct (ptr_eqb (destination_p mig) (Some (me w)));
    [by exists 0, (Ret (negb (MyConnect c)))|].
  destruct (is_null (furthest_ack_p mig)); [by exists 0, (Ret false)|].
  destruct (ptr_eqb (furthest_ack_p mig) (destination_p mig));
    [by exists 0, (Ret true)|].
  destruct (find_next_ack_halts mig (destination_p mig))
    as (n1 & o1 & Ho1 & Hrun1).
  destruct o1 as [[|next_ack_p]| |]; [| | |done].
  - exists n1, (Ret false). split; [done|]. intros fuel Hfuel.
    unfold bind. by rewrite Hrun1.
  - destruct (source_walk_halts next_ack_p (Some s)) as (n2 & o2 & Ho2 & Hrun2).
    exists (n1 `max` n2), o2. split; [done|]. intros fuel Hfuel.
    unfold bind. rewrite Hrun1 by lia. apply Hrun2. lia.
  - exists n1, Fault. split; [done|]. intros fuel Hfuel.
    unfold bind. by rewrite Hrun1.
Qed.

Lemma migrate_skip_output_returns target_p source_p :
  valid_pointers w → valid_arg w target_p → valid_arg w source_p →
  returns_eventually (λ fuel, migrate_skip_output fuel target_p source_p) w.
Proof.
  intros [Hmig Hdest] Htgt Hsrc.
  destruct target_p as [t|]; [|by exists 0, false].
  destruct source_p as [s|]; [|by exists 0, false].
  destruct (Htgt t eq_refl) as [c Hc]. destruct (Hsrc s eq_refl) as [cs Hcs].
  destruct (migration c) as [m|] eqn:Hm.
  2:{ exists 0, false. intros fuel _. unfold migrate_skip_output. simpl.
      unfold bind, load_client. by rewrite Hc, Hm. }
  destruct (Hmig t c m Hc Hm) as [mig Hg].
  destruct (Hdest m mig Hg) as (d & Hd & Hdc).
  assert (active_migration w (Some t) = Some (c, mig)) as Hact.
  { unfold active_migration. simpl. rewrite Hc. simpl. rewrite Hm. simpl.
    by rewrite Hg. }
  destruct (decide (d = me w)) as [->|Hdme].
  { exists 0, (negb (MyConnect c)). intros fuel _.
    rewrite (skip_output_prologue _ _ _ _ _ _ Hact), Hd.
    unfold ptr_eqb. by rewrite bool_decide_eq_true_2. }
  destruct (furthest_ack_p mig) as [f|] eqn:Hf.
  2:{ exists 0, false. intros fuel _.
      rewrite (skip_output_prologue _ _ _ _ _ _ Hact), Hd, Hf.
      unfold ptr_eqb. by rewrite bool_decide_eq_false_2 by congruence. }
  destruct (decide (f = d)) as [->|Hfd].
  { exists 0, true. intros fuel _.
    rewrite (skip_output_prologue _ _ _ _ _ _ Hact), Hd, Hf. simpl.
    unfold ptr_eqb. rewrite bool_decide_eq_false_2 by congruence.
    by rewrite bool_decide_eq_true_2. }
  destruct Htree as [_ Hreach].
  destruct (Hreach d Hdc) as (kd & ld & Hld).
  destruct (Hreach s (ex_intro _ cs Hcs)) as (ks & ls & Hls).
  exists (S (length ld + length ls)). eexists. intros fuel Hfuel.
  apply (skip_output_general w fuel _ c mig d f s kd ld ks ls); (done || lia).
Qed.
End Halting.

(** Checking a concrete store for [rooted_tree] and [valid_pointers]. *)
Lemma rooted_tree_intro k w :
  parent w (me w) = Some (me w) →
  map_Forall (λ a _, is_Some (path_to_me k w a)) (clients w) →
  rooted_tree w.
Proof.
  intros Hme Hall. split; [done|]. intros a [c Hc]. exists k.
  by apply (Hall a c).
Qed.

Lemma valid_pointers_intro w :
  map_Forall (λ _ c, migration c = None ∨
                     is_Some (migration c ≫= λ m, migrations w !! m))
    (clients w) →
  map_Forall (λ _ mig, is_Some (destination_p mig ≫= λ d, clients w !! d))
    (migrations w) →
  valid_pointers w.
Proof.
  intros Hc Hm. split.
  - intros a c m Hac Hcm. destruct (Hc a c Hac) as [Hnone|Hsome]; [congruence|].
    by rewrite Hcm in Hsome.
  - intros m mig Hmig. specialize (Hm m mig Hmig). simpl in Hm.
    destruct (destination_p mig) as [d|]; [|by destruct Hm]. by exists d.
Qed.

(** ** The decision table of [migrate_skip_output] *)

(** A NULL source: line 54 returns false before anything is read. *)
Lemma skip_output_null_source w fuel target_p :
  (migrate_skip_output fuel target_p None w).1 = Ret false.
Proof. unfold migrate_skip_output. by destruct target_p. Qed.

(** Claim C6. A target client without an active migration
    ([target_p->migration] is NULL): the function returns false, whatever
    the source pointer is and however small the iteration bound. *)
Theorem skip_output_no_migration w fuel t target source_p :
  clients w !! t = Some target → migration target = None →
  result_of (migrate_skip_output fuel (Some t) source_p) w = Ret false.
Proof.
  intros Hc Hm. unfold result_of, migrate_skip_output. simpl.
  destruct source_p as [s|]; simpl; [|done].
  unfold bind, load_client. by rewrite Hc, Hm.
Qed.

(** Claim C5. Inbound migration (the record's destination is the local
    node): the function returns [!MyConnect(target_p)], that is true exactly
    when the migrating client is not locally connected, for every source
    node and every [furthest_ack_p]. *)
Theorem skip_output_inbound w fuel target_p target mig s :
  active_migration w target_p = Some (target, mig) →
  destination_p mig = Some (me w) →
  ∃ b, result_of (migrate_skip_output fuel target_p (Some s)) w = Ret b ∧
       (b = true ↔ MyConnect target = false).
Proof.
  intros Hact Hd. exists (negb (MyConnect target)). split.
  - unfold result_of. rewrite (skip_output_prologue _ _ _ _ _ _ Hact), Hd.
    unfold ptr_eqb. by rewrite bool_decide_eq_true_2.
  - by destruct (MyConnect target).
Qed.

(** Claim C4. Outbound migration whose flip the destination has acked
    ([furthest_ack_p == destination_p]): the function returns true for
    every source node. *)
Theorem skip_output_all_acked w fuel target_p target mig d s :
  active_migration w target_p = Some (target, mig) →
  destination_p mig = Some d → d ≠ me w →
  furthest_ack_p mig = Some d →
  result_of (migrate_skip_output fuel target_p (Some s)) w = Ret true.
Proof.
  intros Hact Hd Hne Hf. unfold result_of.
  rewrite (skip_output_prologue _ _ _ _ _ _ Hact), Hd, Hf. simpl.
  unfold ptr_eqb. rewrite bool_decide_eq_false_2 by congruence.
  by rewrite bool_decide_eq_true_2.
Qed.

(** Claim C1. Outbound migration, [furthest_ack_p] a node [f] strictly
    between the local node and the destination (on the destination's walk,
    not the destination): there is exactly one node [next_ack] on the direct
    path whose parent is [f], and the function returns false when [next_ack]
    is on the parent-walk from the source up to the local node, true when it
    is not. *)
Theorem skip_output_next_ack w fuel target_p target mig d f s kd ld ks ls :
  active_migration w target_p = Some (target, mig) →
  destination_p mig = Some d → d ≠ me w →
  furthest_ack_p mig = Some f →
  path_to_me kd w d = Some ld → f ∈ ld → f ≠ d →
  path_to_me ks w s = Some ls →
  length ld < fuel → length ls < fuel →
  ∃ next_ack,
    (∀ n, n ∈ ld ∧ parent w n = Some f ↔ n = next_ack) ∧
    (next_ack ∈ ls →
       result_of (migrate_skip_output fuel target_p (Some s)) w = Ret false) ∧
    (next_ack ∉ ls →
       result_of (migrate_skip_output fuel target_p (Some s)) w = Ret true).
Proof.
  intros Hact Hd Hne Hf Hld Hin Hfd Hls Hlend Hlens.
  destruct (path_to_me_child _ _ _ _ _ Hld Hin Hfd) as (n & Hn & Hpn).
  pose proof (first_child_of_unique _ _ _ _ _ _ Hld Hn Hpn) as Hfirst.
  exists n. split; [|split].
  - intros n'. split.
    + intros [Hn' Hpn'].
      pose proof (first_child_of_unique _ _ _ _ _ _ Hld Hn' Hpn'). congruence.
    + by intros ->.
  - intros Hon. unfold result_of.
    rewrite (skip_output_general w fuel _ _ _ d f s kd ld ks ls) by done.
    rewrite Hfirst. simpl. by rewrite bool_decide_eq_true_2.
  - intros Hoff. unfold result_of.
    rewrite (skip_output_general w fuel _ _ _ d f s kd ld ks ls) by done.
    rewrite Hfirst. simpl. by rewrite bool_decide_eq_false_2.
Qed.

(** Claim C7. General case, invariant violated: when no node on the walk
    from the destination up to the local node has [furthest_ack_p] as its
    parent, step 1 reaches the local node and the function returns false,
    for every source pointer: no fault, no suppression. *)
Theorem skip_output_logic_error w fuel target_p target mig d f kd ld source_p :
  active_migration w target_p = Some (target, mig) →
  destination_p mig = Some d → d ≠ me w →
  furthest_ack_p mig = Some f → f ≠ d →
  path_to_me kd w d = Some ld →
  (∀ x, x ∈ ld → parent w x ≠ Some f) →
  length ld < fuel →
  result_of (migrate_skip_output fuel target_p source_p) w = Ret false.
Proof.
  intros Hact Hd Hne Hf Hfd Hld Hnone Hlen. unfold result_of.
  destruct source_p as [s|]; [|by apply skip_output_null_source].
  rewrite (skip_output_prologue _ _ _ _ _ _ Hact), Hd, Hf. simpl.
  unfold ptr_eqb. rewrite !bool_decide_eq_false_2 by congruence.
  unfold bind. rewrite (find_next_ack_on_path _ _ _ _ _ _ Hld Hlen), Hf.
  apply first_child_of_None in Hnone. by rewrite Hnone.
Qed.

(** Claim C3, as the code has it. Outbound migration: with
    [furthest_ack_p] NULL (the flip not sent yet) the function returns false
    for every source pointer. With [furthest_ack_p == &me] the general case
    runs, [next_ack] being the child of the local node on the direct path:
    the result is false exactly when [next_ack] is on the source's walk, and
    so true for a message that starts at the local node itself. *)
Theorem skip_output_no_ack w fuel target_p target mig d :
  active_migration w target_p = Some (target, mig) →
  destination_p mig = Some d → d ≠ me w →
  (furthest_ack_p mig = None →
     ∀ source_p,
       result_of (migrate_skip_output fuel target_p source_p) w = Ret false) ∧
  (furthest_ack_p mig = Some (me w) →
     ∀ kd ld, path_to_me kd w d = Some ld → length ld < fuel →
     ∃ next_ack,
       (∀ n, n ∈ ld ∧ parent w n = Some (me w) ↔ n = next_ack) ∧
       (∀ s ks ls, path_to_me ks w s = Some ls → length ls < fuel →
          result_of (migrate_skip_output fuel target_p (Some s)) w =
            Ret (negb (bool_decide (next_ack ∈ ls)))) ∧
       result_of (migrate_skip_output fuel target_p (Some (me w))) w = Ret true).
Proof.
  intros Hact Hd Hne. split.
  - intros Hf [s|]; unfold result_of; [|by apply skip_output_null_source].
    rewrite (skip_output_prologue _ _ _ _ _ _ Hact), Hd, Hf. simpl.
    unfold ptr_eqb. by rewrite bool_decide_eq_false_2 by congruence.
  - intros Hf kd ld Hld Hlen.
    destruct (path_to_me_last _ _ _ _ Hld Hne) as (n & Hn & Hpn).
    pose proof (first_child_of_unique _ _ _ _ _ _ Hld Hn Hpn) as Hfirst.
    assert (∀ s ks ls, path_to_me ks w s = Some ls → length ls < fuel →
              result_of (migrate_skip_output fuel target_p (Some s)) w =
                Ret (negb (bool_decide (n ∈ ls)))) as Hgen.
    { intros s ks ls Hls Hlens. unfold result_of.
      rewrite (skip_output_general w fuel _ _ _ d (me w) s kd ld ks ls)
        by (done || congruence).
      by rewrite Hfirst. }
    exists n. split; [|split; [done|]].
    + intros n'. split.
      * intros [Hn' Hpn'].
        pose proof (first_child_of_unique _ _ _ _ _ _ Hld Hn' Hpn'). congruence.
      * by intros ->.
    + rewrite (Hgen (me w) 1 []); [|simpl; by rewrite decide_True|simpl; lia].
      rewrite bool_decide_eq_false_2; [done|apply not_elem_of_nil].
Qed.

(** ** Effects *)

(** Claim C8. [migrate_skip_output] writes nothing: whatever the
    arguments, the state after the call (the [Migration] records and every
    client) is the state before it; and calling it twice in a row gives the
    same answer both times. *)
Theorem migrate_skip_output_pure w fuel target_p source_p :
  state_after (migrate_skip_output fuel target_p source_p) w = w ∧
  (let* first := migrate_skip_output fuel target_p source_p in
   let* second := migrate_skip_output fuel target_p source_p in
   ret (first, second)) w =
    (match result_of (migrate_skip_output fuel target_p source_p) w with
     | Ret b => Ret (b, b)
     | Fault => Fault
     | OutOfFuel => OutOfFuel
     end, w).
Proof.
  pose proof (read_only_migrate_skip_output fuel target_p source_p) as Hro.
  split; [apply Hro|].
  unfold bind. rewrite (run_read_only _ w Hro).
  destruct (result_of (migrate_skip_output fuel target_p source_p) w) as [b| |]
    eqn:Hres; try done.
  rewrite (run_read_only _ w Hro), Hres. done.
Qed.

(** Claim C9. [migration_resume] with a NULL [client_p], a NULL
    [migrant_p], or a client that has no migration attached returns normally
    and leaves the state as it was. *)
Theorem migration_resume_rejects w client_p migrant_p :
  client_p = None ∨ migrant_p = None ∨
  (∃ a c, client_p = Some a ∧ clients w !! a = Some c ∧ migration c = None) →
  migration_resume client_p migrant_p w = (Ret tt, w).
Proof.
  unfold migration_resume. intros [->|[->|(a & c & -> & Hc & Hm)]].
  - done.
  - by destruct client_p.
  - simpl. destruct migrant_p as [m|]; simpl; [|done].
    unfold bind, load_client. by rewrite Hc, Hm.
Qed.

(** ** Termination *)

(** Claim C10. On a tree rooted at the local node (the local node is its
    own parent and every node's parent chain reaches it),
    [migrate_skip_output] stops for every pair of arguments: from some
    number of loop iterations on, the outcome is the same and is not a cut
    off loop. So do its two loops, from any starting pointer: the walk from
    the destination stops with [next_ack_p] found or at the local node, the
    walk from the source stops at [next_ack_p] or at the local node. With
    valid pointers (arguments NULL or pointing at clients, records pointing
    at nodes) the function returns a boolean. *)
Theorem migrate_skip_output_terminates w target_p source_p :
  rooted_tree w →
  halts (λ fuel, migrate_skip_output fuel target_p source_p) w ∧
  (∀ mig p, halts (λ fuel, find_next_ack fuel mig p) w) ∧
  (∀ next_ack_p p, halts (λ fuel, source_walk fuel next_ack_p p) w) ∧
  (valid_pointers w → valid_arg w target_p → valid_arg w source_p →
   returns_eventually
     (λ fuel, migrate_skip_output fuel target_p source_p) w).
Proof.
  intros Htree. repeat split.
  - by apply migrate_skip_output_halts.
  - intros. by apply find_next_ack_halts.
  - intros. by apply source_walk_halts.
  - by apply migrate_skip_output_returns.
Qed.

(** ** Walks have no repeated node *)

Section Chains.
Variable w : World.

Lemma path_to_me_NoDup fuel a l :
  path_to_me fuel w a = Some l → NoDup l.
Proof.
  revert a l.
  induction fuel as [|fuel IH]; intros a l H; [done|].
  pose proof H as H0.
  apply path_to_me_inv in H
    as [[_ ->]|[_ (f' & p & l' & [= <-] & Hp & Hl & ->)]].
  - by apply NoDup_nil.
  - apply NoDup_cons. split; [|by eapply IH].
    intros Hin.
    destruct (path_to_me_from w _ _ _ _ Hl Hin) as (l'' & Hl'' & Hsuf).
    pose proof (path_to_me_det w _ _ _ _ _ Hl'' H0) as [= ->].
    by apply suffix_cons_not in Hsuf.
Qed.

(** The walk of a node's parent is the rest of the node's walk. *)
Lemma path_to_me_parent fuel a p l :
  path_to_me fuel w a = Some (a :: l) → parent w a = Some p →
  path_to_me fuel w p = Some l.
Proof.
  intros H Hp.
  apply path_to_me_inv in H
    as [[_ [=]]|[_ (f' & p' & l' & -> & Hp' & Hl & [= ->])]].
  assert (p' = p) as -> by congruence.
  eapply path_to_me_fuel; [done|]. apply path_to_me_length in Hl. lia.
Qed.

Lemma from_node_off f l : f ∉ l → from_node f l = [].
Proof.
  induction l as [|x l IH]; [done|]. intros [Hx Hl]%not_elem_of_cons.
  simpl. rewrite decide_False by done. by apply IH.
Qed.

Lemma from_node_app f pre post :
  f ∉ pre → from_node f (pre ++ f :: post) = f :: post.
Proof.
  induction pre as [|x pre IH]; simpl.
  - intros _. by rewrite decide_True.
  - intros [Hx Hpre]%not_elem_of_cons. rewrite decide_False by done.
    by apply IH.
Qed.

(** On a walk, the part from [f] on is the walk of [f]. *)
Lemma from_node_path fuel d ld f :
  path_to_me fuel w d = Some ld → f ∈ ld →
  path_to_me fuel w f = Some (from_node f ld).
Proof.
  intros Hld Hf.
  destruct (path_to_me_from w _ _ _ _ Hld Hf) as (lf & Hlf & [pre Hpre]).
  rewrite Hlf. f_equal. subst ld.
  pose proof (path_to_me_NoDup _ _ _ Hld) as Hnd.
  apply NoDup_app in Hnd as (_ & Hdisj & _).
  rewrite from_node_app; [done|].
  intros Hin. apply (Hdisj f Hin). left.
Qed.

(** The walk of the destination, cut at the next node to ack: that node,
    then the nodes that have acked. *)
Lemma direct_path_split fuel d ld n f :
  path_to_me fuel w d = Some ld → n ∈ ld → parent w n = Some f →
  (f ∈ ld ∨ f = me w) →
  ∃ pre, ld = pre ++ n :: from_node f ld ∧
         path_to_me fuel w n = Some (n :: from_node f ld) ∧
         n ∉ from_node f ld.
Proof.
  intros Hld Hn Hpn Hf.
  destruct (path_to_me_from w _ _ _ _ Hld Hn) as (ln & Hln & [pre Hpre]).
  pose proof (path_to_me_parent _ _ _ _ Hln Hpn) as Hlf.
  assert (ln = from_node f ld) as ->.
  { destruct Hf as [Hf| ->].
    - pose proof (from_node_path _ _ _ _ Hld Hf) as Hlf'. congruence.
    - rewrite from_node_off by (by eapply me_not_on_path).
      destruct fuel; [done|]. simpl in Hlf. rewrite decide_True in Hlf by done.
      congruence. }
  exists pre. split; [done|]. split; [done|].
  pose proof (path_to_me_NoDup _ _ _ Hln) as Hnd.
  by apply NoDup_cons in Hnd as [? _].
Qed.

(** The first node of the source's walk on the direct path, its own walk,
    and what of the source's walk lies on the direct path. *)
Lemma first_on_path fuel s ls ld e :
  path_to_me fuel w s = Some ls → first_on ld ls = Some e →
  e ∈ ld ∧ ∃ le, path_to_me fuel w e = Some (e :: le) ∧
                 (e :: le) `suffix_of` ls ∧
                 ∀ x, x ∈ ls → x ∈ ld → x ∈ e :: le.
Proof.
  revert s ls.
  induction fuel as [|fuel IH]; intros s ls H He; [done|].
  pose proof H as H0.
  apply path_to_me_inv in H
    as [[_ ->]|[_ (f' & p & l' & [= <-] & Hp & Hl & ->)]]; [done|].
  simpl in He. destruct (decide (s ∈ ld)) as [Hs|Hs].
  - injection He as <-. split; [done|]. exists l'. by repeat split.
  - destruct (IH _ _ Hl He) as (Hin & le & Hle & Hsuf & Hall).
    split; [done|]. exists le. split; [|split].
    + eapply path_to_me_fuel; [done|]. apply path_to_me_length in Hle. lia.
    + by apply suffix_cons_r.
    + intros x [->|Hx]%elem_of_cons Hxd; [done|]. by apply Hall.
Qed.

Lemma first_on_None ld ls : first_on ld ls = None → ∀ x, x ∈ ls → x ∉ ld.
Proof.
  induction ls as [|y ls IH]; simpl.
  - intros _ x Hx. by apply elem_of_nil in Hx.
  - destruct (decide (y ∈ ld)); [done|].
    intros H x [->|Hx]%elem_of_cons; [done|]. by apply IH.
Qed.

(** The heart of the optimisation: the next node to ack is on the source's
    walk exactly when the node that sees the message first has not acked. *)
Lemma next_ack_on_walk_iff fuel d ld n f ks s ls :
  path_to_me fuel w d = Some ld → n ∈ ld → parent w n = Some f →
  (f ∈ ld ∨ f = me w) →
  path_to_me ks w s = Some ls →
  n ∈ ls ↔ entry_node w ld ls ∉ acked_nodes w (Some f) ld.
Proof.
  intros Hld Hn Hpn Hf Hls.
  destruct (direct_path_split _ _ _ _ _ Hld Hn Hpn Hf)
    as (pre & Hsplit & Hln & Hnlf).
  unfold entry_node, acked_nodes.
  destruct (first_on ld ls) as [e|] eqn:He; simpl.
  - destruct (first_on_path _ _ _ _ _ Hls He)
      as (Hin & le & Hle & Hsuf & Hall).
    assert (e ≠ me w) as Heme.
    { intros ->. by apply (me_not_on_path w _ _ _ Hld). }
    destruct (path_to_me_from w _ _ _ _ Hld Hin) as (le' & Hle' & Hsufd).
    pose proof (path_to_me_det w _ _ _ _ _ Hle Hle') as [= <-].
    assert ((n :: from_node f ld) `suffix_of` ld) as Hsufn.
    { exists pre. done. }
    rewrite not_elem_of_app, list_elem_of_singleton.
    destruct (suffix_weak_total _ _ _ Hsufd Hsufn) as [Hen|Hne].
    + (* the walk of [e] is part of n :: acked *)
      apply suffix_cons_inv in Hen as [[= -> ->]|Hen].
      * split; [done|]. intros _. by eapply elem_of_suffix; [left|].
      * split.
        -- intros Hnls. exfalso. apply Hnlf.
           eapply elem_of_suffix; [|done]. by apply Hall.
        -- intros [Hnot _]. exfalso. apply Hnot.
           eapply elem_of_suffix; [left|done].
    + (* n :: acked is part of the walk of [e] *)
      split.
      * intros _. split; [|done]. intros Hein.
        destruct Hne as [k Hk]. destruct k as [|e' k].
        -- simpl in Hk. injection Hk as -> ->. done.
        -- simpl in Hk. injection Hk as <- ->.
           pose proof (path_to_me_NoDup _ _ _ Hle) as Hnd.
           apply NoDup_cons in Hnd as [Hnd _]. apply Hnd.
           apply elem_of_app. right. by right.
      * intros _. eapply elem_of_suffix; [|done].
        eapply elem_of_suffix; [left|done].
  - split.
    + intros Hnls. exfalso. by apply (first_on_None _ _ He n).
    + intros Hnot. exfalso. apply Hnot. apply elem_of_app. right. left.
Qed.
End Chains.

(** ** The gate against the algorithm of migrate.h *)

Section Algorithm.
Variable w : World.

Lemma from_node_subseteq f l x : x ∈ from_node f l → x ∈ l.
Proof.
  induction l as [|y l IH]; simpl; [done|].
  destruct (decide (y = f)); [done|]. intros Hx. right. by apply IH.
Qed.

Lemma from_node_head d l : from_node d (d :: l) = d :: l.
Proof. simpl. by rewrite decide_True. Qed.

Lemma entry_node_on_path ld ls :
  entry_node w ld ls ∈ ld ++ [me w].
Proof.
  unfold entry_node. apply elem_of_app.
  induction ls as [|x ls IH]; simpl; [right; left|].
  destruct (decide (x ∈ ld)); [by left|done].
Qed.

(** The parent of a node of a walk is the next node of the walk, or the
    local node. *)
Lemma path_to_me_parent_on fuel d l x f :
  path_to_me fuel w d = Some l → x ∈ l → parent w x = Some f →
  f ∈ l ∨ f = me w.
Proof.
  intros Hl Hx Hp.
  destruct (path_to_me_from w _ _ _ _ Hl Hx) as (lx & Hlx & Hsuf).
  pose proof (path_to_me_parent w _ _ _ _ Hlx Hp) as Hlf.
  destruct (decide (f = me w)) as [->|Hne]; [by right|left].
  apply path_to_me_inv in Hlf
    as [[? _]|[_ (f' & p & l' & _ & _ & _ & ->)]]; [done|].
  eapply elem_of_suffix; [|done]. right. left.
Qed.

(** The whole function, when [furthest_ack_p] is where migrate.h says it
    is: NULL, the local node, or a node of the direct path. *)
Lemma skip_output_entry_run fuel target_p target mig d s kd ld ks ls :
  active_migration w target_p = Some (target, mig) →
  destination_p mig = Some d → d ≠ me w →
  path_to_me kd w d = Some ld → path_to_me ks w s = Some ls →
  (∀ f, furthest_ack_p mig = Some f → f ∈ ld ∨ f = me w) →
  length ld < fuel → length ls < fuel →
  migrate_skip_output fuel target_p (Some s) w =
    (Ret (bool_decide
            (entry_node w ld ls ∈ acked_nodes w (furthest_ack_p mig) ld)), w).
Proof.
  intros Hact Hd Hne Hld Hls Hinv Hlend Hlens.
  destruct (furthest_ack_p mig) as [f|] eqn:Hf.
  - destruct (decide (f = d)) as [->|Hfd].
    + rewrite (skip_output_prologue _ _ _ _ _ _ Hact), Hd, Hf. simpl.
      unfold ptr_eqb. rewrite bool_decide_eq_false_2 by congruence.
      rewrite bool_decide_eq_true_2 by done.
      rewrite bool_decide_eq_true_2; [done|].
      pose proof Hld as Hld'.
      apply path_to_me_inv in Hld'
        as [[? _]|[_ (f' & p & l' & _ & _ & _ & ->)]]; [done|].
      unfold acked_nodes. rewrite from_node_head. apply entry_node_on_path.
    + specialize (Hinv f eq_refl).
      assert (∃ n, n ∈ ld ∧ parent w n = Some f) as (n & Hn & Hpn).
      { destruct Hinv as [Hin| ->].
        - by eapply path_to_me_child.
        - by eapply path_to_me_last. }
      rewrite (skip_output_general w fuel _ _ _ d f s kd ld ks ls) by done.
      rewrite (first_child_of_unique w _ _ _ _ _ Hld Hn Hpn).
      f_equal. f_equal.
      pose proof (next_ack_on_walk_iff w _ _ _ _ _ _ _ _ Hld Hn Hpn Hinv Hls)
        as Hiff.
      destruct (decide (n ∈ ls)) as [Hin|Hout].
      * rewrite bool_decide_eq_true_2 by done.
        rewrite bool_decide_eq_false_2; [done|]. by apply Hiff.
      * rewrite bool_decide_eq_false_2 by done.
        rewrite bool_decide_eq_true_2; [done|].
        destruct (decide (entry_node w ld ls ∈ acked_nodes w (Some f) ld));
          [done|]. exfalso. by apply Hout, Hiff.
  - rewrite (skip_output_prologue _ _ _ _ _ _ Hact), Hd, Hf. simpl.
    unfold ptr_eqb. by rewrite bool_decide_eq_false_2 by congruence.
Qed.

(** The nodes that have acked when the furthest ack is [f'] include those
    that have acked when it is a node [f] that [f'] covers. *)
Lemma acked_nodes_mono fuel d ld f f' x :
  path_to_me fuel w d = Some ld → (f' ∈ ld ∨ f' = me w) →
  f ∈ acked_nodes w (Some f') ld →
  x ∈ acked_nodes w (Some f) ld → x ∈ acked_nodes w (Some f') ld.
Proof.
  unfold acked_nodes. intros Hld Hf' Hf Hx.
  apply elem_of_app in Hx as [Hx|Hx]; [|apply elem_of_app; by right].
  apply elem_of_app in Hf as [Hf|Hf%list_elem_of_singleton].
  2:{ subst f. rewrite from_node_off in Hx by (by eapply me_not_on_path).
      by apply elem_of_nil in Hx. }
  apply elem_of_app. left.
  destruct Hf' as [Hf'| ->].
  2:{ rewrite from_node_off in Hf by (by eapply me_not_on_path).
      by apply elem_of_nil in Hf. }
  pose proof (from_node_path w _ _ _ _ Hld Hf') as Hpf'.
  pose proof (from_node_subseteq _ _ _ Hf) as Hfld.
  pose proof (from_node_path w _ _ _ _ Hld Hfld) as Hpf.
  destruct (path_to_me_from w _ _ _ _ Hpf' Hf) as (lf & Hlf & Hsuf).
  pose proof (path_to_me_det w _ _ _ _ _ Hlf Hpf) as Heq.
  rewrite <- Heq in Hx. by eapply elem_of_suffix.
Qed.

(** A walk reads the parents of its own nodes only. *)
Lemma path_to_me_agree w' fuel a l :
  me w' = me w → path_to_me fuel w a = Some l →
  (∀ x, x ∈ l → parent w' x = parent w x) →
  path_to_me fuel w' a = Some l.
Proof.
  intros Hme. revert a l.
  induction fuel as [|fuel IH]; intros a l H Hagree; [done|].
  apply path_to_me_inv in H
    as [[-> ->]|[Hne (f' & p & l' & [= <-] & Hp & Hl & ->)]].
  - simpl. by rewrite Hme, decide_True.
  - simpl. rewrite Hme, decide_False by done.
    rewrite (Hagree a) by left. rewrite Hp. simpl.
    rewrite (IH p l' Hl); [done|]. intros x Hx. apply Hagree. by right.
Qed.

Lemma first_child_of_agree w' f l :
  (∀ x, x ∈ l → parent w' x = parent w x) →
  first_child_of w' f l = first_child_of w f l.
Proof.
  induction l as [|y l IH]; intros Hagree; simpl; [done|].
  rewrite (Hagree y) by left.
  destruct (decide (parent w y = f)); [done|].
  apply IH. intros x Hx. apply Hagree. by right.
Qed.
End Algorithm.

(** ** Walks that do not reach the local node *)

Section OffTheTree.
Variable w : World.

Lemma stays_in_parent C x :
  stays_in w C = true → x ∈ C → ∃ p, parent w x = Some p ∧ p ∈ C.
Proof.
  unfold stays_in. rewrite forallb_forall. intros Hall Hx.
  specialize (Hall x (proj1 (list_elem_of_In _ _) Hx)).
  destruct (parent w x) as [p|]; [|done].
  exists p. split; [done|]. by apply bool_decide_eq_true_1 in Hall.
Qed.

(** Step 2 from inside a set of nodes that the parent pointers never leave,
    with neither the local node nor [next_ack_p] in it: every bound is
    used up. *)
Lemma source_walk_loops C n fuel s :
  stays_in w C = true → me w ∉ C → n ∉ C → s ∈ C →
  source_walk fuel (Some n) (Some s) w = (OutOfFuel, w).
Proof.
  intros Hstay Hme Hn. revert s.
  induction fuel as [|fuel IH]; intros s Hs; [done|].
  destruct (stays_in_parent C s Hstay Hs) as (p & Hp & HpC).
  simpl. unfold bind at 1, addr_of_me, ptr_eqb.
  rewrite !bool_decide_eq_false_2 by (intros [= ->]; done).
  destruct (load_client_parent w _ _ Hp) as (c & Hc & Hsp & _).
  unfold bind. rewrite Hc, Hsp. by apply IH.
Qed.

(** Step 1 likewise, when no node of the set is a child of
    [furthest_ack_p]. *)
Lemma find_next_ack_loops C mig fuel d :
  stays_in w C = true → me w ∉ C →
  first_child_of w (furthest_ack_p mig) C = None → d ∈ C →
  find_next_ack fuel mig (Some d) w = (OutOfFuel, w).
Proof.
  intros Hstay Hme Hnone. revert d.
  induction fuel as [|fuel IH]; intros d Hd; [done|].
  destruct (stays_in_parent C d Hstay Hd) as (p & Hp & HpC).
  simpl. unfold bind at 1, addr_of_me, ptr_eqb.
  rewrite bool_decide_eq_false_2 by (intros [= ->]; done).
  destruct (load_client_parent w _ _ Hp) as (c & Hc & Hsp & Hpc).
  unfold bind at 1. rewrite Hc.
  rewrite bool_decide_eq_false_2.
  - rewrite Hsp. by apply IH.
  - rewrite <- Hpc.
    by apply (proj1 (first_child_of_None w _ _) Hnone d).
Qed.

(** Under a bound too small for it, step 1 is cut off; it never gives
    another answer than the one it gives in the end. *)
Lemma find_next_ack_partial k mig d l fuel :
  path_to_me k w d = Some l →
  find_next_ack fuel mig (Some d) w = (OutOfFuel, w) ∨
  find_next_ack fuel mig (Some d) w =
    (Ret (match first_child_of w (furthest_ack_p mig) l with
          | Some n => NextAck (Some n)
          | None => LogicError
          end), w).
Proof.
  revert fuel d l.
  induction k as [|k IH]; intros fuel d l H; [done|].
  destruct fuel as [|fuel]; [by left|].
  apply path_to_me_inv in H
    as [[-> ->]|[Hne (k' & p & l' & [= <-] & Hp & Hl & ->)]].
  - right. simpl. unfold bind, addr_of_me, ptr_eqb.
    by rewrite bool_decide_eq_true_2.
  - simpl. unfold bind at 1 3, addr_of_me, ptr_eqb at 1 3.
    rewrite !bool_decide_eq_false_2 by congruence.
    destruct (load_client_parent w _ _ Hp) as (c & Hc & Hs & Hpc).
    unfold bind at 1 2. rewrite Hc. unfold ptr_eqb. rewrite Hpc.
    destruct (decide (servptr c = furthest_ack_p mig)) as [Heq|Hneq].
    + right. by rewrite bool_decide_eq_true_2.
    + rewrite bool_decide_eq_false_2 by done. rewrite Hs. apply IH. done.
Qed.

(** Step 2 along a chain that ends at a client whose [servptr] is NULL. *)
Lemma source_walk_orphan n fuel s l x c :
  follow w s l = Some x → clients w !! x = Some c → servptr c = None →
  me w ∉ s :: l → n ∉ s :: l → length l + 2 ≤ fuel →
  source_walk fuel (Some n) (Some s) w = (Fault, w).
Proof.
  revert fuel s. induction l as [|y l IH]; intros fuel s Hfol Hx Hc Hme Hn Hfuel.
  - simpl in Hfol. injection Hfol as ->.
    destruct fuel as [|[|fuel]]; [simpl in Hfuel; lia..|].
    apply not_elem_of_cons in Hme as [Hme _].
    apply not_elem_of_cons in Hn as [Hn _].
    simpl. unfold bind at 1, addr_of_me, ptr_eqb.
    rewrite !bool_decide_eq_false_2 by congruence.
    unfold bind at 1, load_client. rewrite Hx, Hc. done.
  - simpl in Hfol. destruct (decide (parent w s = Some y)) as [Hp|]; [|done].
    destruct fuel as [|fuel]; [simpl in Hfuel; lia|].
    apply not_elem_of_cons in Hme as [Hme Hme'].
    apply not_elem_of_cons in Hn as [Hn Hn'].
    simpl. unfold bind at 1, addr_of_me, ptr_eqb.
    rewrite !bool_decide_eq_false_2 by congruence.
    destruct (load_client_parent w _ _ Hp) as (c' & Hc' & Hs & _).
    unfold bind. rewrite Hc', Hs.
    apply IH; try done. simpl in Hfuel. lia.
Qed.
End OffTheTree.

(** ** Further properties of the gate *)

(** Property X1. [migrate_skip_output] computes the algorithm migrate.h
    describes. For an outbound migration whose [furthest_ack_p] is NULL, the
    local node or a node of the direct path, the function returns true
    exactly when the direct-path node that sees the message first (the first
    node of the source's walk on the direct path, the local node when there
    is none) is among the nodes that have acked the flip. *)
Theorem skip_output_entry_acked w fuel target_p target mig d s kd ld ks ls :
  active_migration w target_p = Some (target, mig) →
  destination_p mig = Some d → d ≠ me w →
  path_to_me kd w d = Some ld → path_to_me ks w s = Some ls →
  (∀ f, furthest_ack_p mig = Some f → f ∈ ld ∨ f = me w) →
  length ld < fuel → length ls < fuel →
  result_of (migrate_skip_output fuel target_p (Some s)) w =
    Ret (bool_decide
           (entry_node w ld ls ∈ acked_nodes w (furthest_ack_p mig) ld)).
Proof.
  intros. unfold result_of.
  by rewrite (skip_output_entry_run w fuel _ target mig d s kd ld ks ls).
Qed.

(** Property X2. Acks only ever turn "produce" into "suppress". On the same
    tree, for the same destination and source, if the function returns true
    with [furthest_ack_p] at [f], it returns true with [furthest_ack_p] at
    any node [f'] of the direct path that is at least as far along, that is,
    under which [f] counts as acked. *)
Theorem skip_output_ack_monotone
    w w' fuel target_p target target' mig mig' d s kd ld ks ls f' :
  me w' = me w → clients w' = clients w →
  active_migration w target_p = Some (target, mig) →
  active_migration w' target_p = Some (target', mig') →
  destination_p mig = Some d → destination_p mig' = Some d → d ≠ me w →
  path_to_me kd w d = Some ld → path_to_me ks w s = Some ls →
  furthest_ack_p mig' = Some f' → (f' ∈ ld ∨ f' = me w) →
  (∀ f, furthest_ack_p mig = Some f → f ∈ acked_nodes w (Some f') ld) →
  length ld < fuel → length ls < fuel →
  result_of (migrate_skip_output fuel target_p (Some s)) w = Ret true →
  result_of (migrate_skip_output fuel target_p (Some s)) w' = Ret true.
Proof.
  intros Hme Hcl Hact Hact' Hd Hd' Hne Hld Hls Hf' Hinv' Hcover Hlend Hlens.
  assert (∀ x, parent w' x = parent w x) as Hpar.
  { intros x. unfold parent. by rewrite Hcl. }
  assert (∀ f, furthest_ack_p mig = Some f → f ∈ ld ∨ f = me w) as Hinv.
  { intros f Hf. specialize (Hcover f Hf). unfold acked_nodes in Hcover.
    apply elem_of_app in Hcover as [Hin|Hin%list_elem_of_singleton];
      [left; by eapply from_node_subseteq|by right]. }
  unfold result_of.
  rewrite (skip_output_entry_run w fuel _ target mig d s kd ld ks ls) by done.
  rewrite (skip_output_entry_run w' fuel _ target' mig' d s kd ld ks ls);
    [|done|done|by rewrite Hme
     |apply (path_to_me_agree w); [done|done|intros; apply Hpar]
     |apply (path_to_me_agree w); [done|done|intros; apply Hpar]
     |intros f Hf; rewrite Hme; by assert (f = f') as -> by congruence
     |done|done].
  simpl. intros [= Htrue]. apply bool_decide_eq_true_1 in Htrue.
  f_equal. apply bool_decide_eq_true_2.
  rewrite Hf'.
  assert (acked_nodes w' (Some f') ld = acked_nodes w (Some f') ld) as ->
    by (unfold acked_nodes; by rewrite Hme).
  assert (entry_node w' ld ls = entry_node w ld ls) as ->
    by (unfold entry_node; by rewrite Hme).
  destruct (furthest_ack_p mig) as [f|] eqn:Hf.
  - apply (acked_nodes_mono w kd d ld f f'); [done|done| |done].
    by apply Hcover.
  - by apply elem_of_nil in Htrue.
Qed.

(** Property X3. The answer is the same all the way up a branch once it is
    "suppress": if the function returns true for a source, it returns true
    for every node on that source's walk to the local node; and if it
    returns false for such a node, it returns false for the source. *)
Theorem skip_output_upstream
    w fuel target_p target mig d s x kd ld ks ls :
  active_migration w target_p = Some (target, mig) →
  destination_p mig = Some d →
  path_to_me kd w d = Some ld → path_to_me ks w s = Some ls →
  x ∈ ls → length ld < fuel → length ls < fuel →
  (result_of (migrate_skip_output fuel target_p (Some s)) w = Ret true →
   result_of (migrate_skip_output fuel target_p (Some x)) w = Ret true) ∧
  (result_of (migrate_skip_output fuel target_p (Some x)) w = Ret false →
   result_of (migrate_skip_output fuel target_p (Some s)) w = Ret false).
Proof.
  intros Hact Hd Hld Hls Hx Hlend Hlens.
  destruct (path_to_me_from w _ _ _ _ Hls Hx) as (lx & Hlx & Hsuf).
  pose proof (suffix_length _ _ Hsuf) as Hlenx.
  unfold result_of.
  destruct (decide (d = me w)) as [->|Hne].
  { rewrite !(skip_output_prologue _ _ _ _ _ _ Hact), Hd.
    unfold ptr_eqb. by rewrite bool_decide_eq_true_2. }
  destruct (furthest_ack_p mig) as [f|] eqn:Hf.
  2:{ rewrite !(skip_output_prologue _ _ _ _ _ _ Hact), Hd, Hf.
      unfold ptr_eqb. by rewrite bool_decide_eq_false_2 by congruence. }
  destruct (decide (f = d)) as [->|Hfd].
  { rewrite !(skip_output_prologue _ _ _ _ _ _ Hact), Hd, Hf. simpl.
    unfold ptr_eqb. rewrite bool_decide_eq_false_2 by congruence.
    by rewrite bool_decide_eq_true_2. }
  rewrite (skip_output_general w fuel _ _ _ d f s kd ld ks ls) by done.
  rewrite (skip_output_general w fuel target_p target mig d f x kd ld ks (x :: lx));
    [|done..|lia].
  destruct (first_child_of w (Some f) ld) as [n|]; [|done]. simpl.
  destruct (decide (n ∈ x :: lx)) as [Hin|Hout].
  - assert (n ∈ ls) by (by eapply elem_of_suffix).
    by rewrite !bool_decide_eq_true_2.
  - by rewrite (bool_decide_eq_false_2 (n ∈ x :: lx)).
Qed.

(** Property X4. Step 1 takes its logic-error exit exactly in the case the
    comment at lines 116-118 names: with the destination other than the
    local node and [furthest_ack_p] a node other than the destination, the
    walk from the destination reaches the local node without a match if and
    only if [furthest_ack_p] is neither the local node nor a node of the
    direct path. *)
Theorem find_next_ack_logic_error_iff w fuel mig d f kd ld :
  path_to_me kd w d = Some ld → d ≠ me w →
  furthest_ack_p mig = Some f → f ≠ d → length ld < fuel →
  find_next_ack fuel mig (Some d) w = (Ret LogicError, w) ↔
  f ≠ me w ∧ f ∉ ld.
Proof.
  intros Hld Hne Hf Hfd Hlen.
  rewrite (find_next_ack_on_path w _ _ _ _ _ Hld Hlen), Hf.
  split.
  - intros Hrun.
    destruct (first_child_of w (Some f) ld) as [n|] eqn:Hfirst; [done|].
    pose proof (proj1 (first_child_of_None w _ _) Hfirst) as Hnone.
    split.
    + intros ->. destruct (path_to_me_last w _ _ _ Hld Hne) as (n & Hn & Hpn).
      by apply (Hnone n).
    + intros Hin.
      destruct (path_to_me_child w _ _ _ _ Hld Hin Hfd) as (n & Hn & Hpn).
      by apply (Hnone n).
  - intros [Hfme Hoff].
    destruct (first_child_of w (Some f) ld) as [n|] eqn:Hfirst; [|done].
    apply first_child_of_Some in Hfirst as [Hn Hpn].
    destruct (path_to_me_parent_on w _ _ _ _ _ Hld Hn Hpn); done.
Qed.

(** Property X5. What the function reads of an outbound migration: the
    record's [destination_p] and [furthest_ack_p] and the [servptr] of the
    nodes on the two walks. Two states that agree on these give the same
    answer, whatever the tokens, [client_p], the [MyConnect] flags and the
    clients off the walks are. *)
Theorem skip_output_footprint
    w w' fuel target_p target target' mig mig' d s kd ld ks ls :
  me w' = me w →
  active_migration w target_p = Some (target, mig) →
  active_migration w' target_p = Some (target', mig') →
  destination_p mig = Some d → destination_p mig' = Some d → d ≠ me w →
  furthest_ack_p mig' = furthest_ack_p mig →
  path_to_me kd w d = Some ld → path_to_me ks w s = Some ls →
  (∀ x, x ∈ ld ++ ls → parent w' x = parent w x) →
  length ld < fuel → length ls < fuel →
  result_of (migrate_skip_output fuel target_p (Some s)) w' =
  result_of (migrate_skip_output fuel target_p (Some s)) w.
Proof.
  intros Hme Hact Hact' Hd Hd' Hne Hfa Hld Hls Hagree Hlend Hlens.
  unfold result_of.
  destruct (furthest_ack_p mig) as [f|] eqn:Hf.
  2:{ rewrite (skip_output_prologue _ _ _ _ _ _ Hact), Hd, Hf.
      rewrite (skip_output_prologue _ _ _ _ _ _ Hact'), Hd', Hfa.
      unfold ptr_eqb.
      rewrite (bool_decide_eq_false_2 (Some d = Some (me w))) by congruence.
      by rewrite (bool_decide_eq_false_2 (Some d = Some (me w')))
        by congruence. }
  destruct (decide (f = d)) as [->|Hfd].
  { rewrite (skip_output_prologue _ _ _ _ _ _ Hact), Hd, Hf.
    rewrite (skip_output_prologue _ _ _ _ _ _ Hact'), Hd', Hfa. simpl.
    unfold ptr_eqb.
    rewrite (bool_decide_eq_false_2 (Some d = Some (me w))) by congruence.
    rewrite (bool_decide_eq_false_2 (Some d = Some (me w'))) by congruence.
    by rewrite !bool_decide_eq_true_2. }
  rewrite (skip_output_general w fuel _ _ _ d f s kd ld ks ls) by done.
  rewrite (skip_output_general w' fuel target_p target' mig' d f s kd ld ks ls);
    [|done|done|congruence|done|done
     |apply (path_to_me_agree w); [done|done|]
     |apply (path_to_me_agree w); [done|done|]
     |done|done].
  - rewrite (first_child_of_agree w w'); [done|].
    intros x Hx. apply Hagree, elem_of_app. by left.
  - intros x Hx. apply Hagree, elem_of_app. by left.
  - intros x Hx. apply Hagree, elem_of_app. by right.
Qed.

(** Property X6. The source's walk is not guarded: when step 1 has found
    [next_ack_p] and the source lies in a set of nodes that the [servptr]
    pointers never leave and that holds neither the local node nor
    [next_ack_p] (a loop of servers, say), step 2 never stops; no number of
    iterations is enough. *)
Theorem skip_output_source_loop
    w target_p target mig d f kd ld n C s :
  active_migration w target_p = Some (target, mig) →
  destination_p mig = Some d → d ≠ me w →
  furthest_ack_p mig = Some f → f ≠ d →
  path_to_me kd w d = Some ld → first_child_of w (Some f) ld = Some n →
  stays_in w C = true → me w ∉ C → n ∉ C → s ∈ C →
  ∀ fuel,
    result_of (migrate_skip_output fuel target_p (Some s)) w = OutOfFuel.
Proof.
  intros Hact Hd Hne Hf Hfd Hld Hfirst Hstay Hme Hn Hs fuel.
  unfold result_of.
  rewrite (skip_output_prologue _ _ _ _ _ _ Hact), Hd, Hf. simpl.
  unfold ptr_eqb. rewrite !bool_decide_eq_false_2 by congruence.
  unfold bind.
  destruct (find_next_ack_partial w kd mig d ld fuel Hld) as [-> | ->];
    [done|].
  rewrite Hf, Hfirst. by rewrite (source_walk_loops w C).
Qed.

(** Property X7. Nor is the walk from the destination: when the
    destination lies in a set of nodes that the [servptr] pointers never
    leave, that does not hold the local node and in which no node has
    [furthest_ack_p] as its parent, step 1 never stops. *)
Theorem skip_output_destination_loop
    w target_p target mig d f C s :
  active_migration w target_p = Some (target, mig) →
  destination_p mig = Some d →
  furthest_ack_p mig = Some f → f ≠ d →
  stays_in w C = true → me w ∉ C → d ∈ C →
  first_child_of w (Some f) C = None →
  ∀ fuel,
    result_of (migrate_skip_output fuel target_p (Some s)) w = OutOfFuel.
Proof.
  intros Hact Hd Hf Hfd Hstay Hme HdC Hnone fuel.
  assert (d ≠ me w) as Hne by (by intros ->).
  unfold result_of.
  rewrite (skip_output_prologue _ _ _ _ _ _ Hact), Hd, Hf. simpl.
  unfold ptr_eqb. rewrite !bool_decide_eq_false_2 by congruence.
  unfold bind. rewrite (find_next_ack_loops w C); [done..| |done].
  by rewrite Hf.
Qed.

(** Property X8. A NULL [servptr] on the source's way is dereferenced: when
    step 1 has found [next_ack_p] and the source's parent chain runs,
    without meeting the local node or [next_ack_p], into a client whose
    [servptr] is NULL, the function faults in step 2. *)
Theorem skip_output_source_orphan
    w fuel target_p target mig d f kd ld n s l x c :
  active_migration w target_p = Some (target, mig) →
  destination_p mig = Some d → d ≠ me w →
  furthest_ack_p mig = Some f → f ≠ d →
  path_to_me kd w d = Some ld → first_child_of w (Some f) ld = Some n →
  follow w s l = Some x → clients w !! x = Some c → servptr c = None →
  me w ∉ s :: l → n ∉ s :: l →
  length ld < fuel → length l + 2 ≤ fuel →
  result_of (migrate_skip_output fuel target_p (Some s)) w = Fault.
Proof.
  intros Hact Hd Hne Hf Hfd Hld Hfirst Hfol Hx Hc Hme Hn Hlend Hlen.
  unfold result_of.
  rewrite (skip_output_prologue _ _ _ _ _ _ Hact), Hd, Hf. simpl.
  unfold ptr_eqb. rewrite !bool_decide_eq_false_2 by congruence.
  unfold bind. rewrite (find_next_ack_on_path w _ _ _ _ _ Hld Hlend).
  rewrite Hf, Hfirst. by rewrite (source_walk_orphan w n fuel s l x c).
Qed.



(** ** The scenarios of the spec *)

Import Scenario.

(** The idle tree: [T] has no migration, a message from [X]. *)
Lemma skip_output_no_migration_witness :
  clients idle !! T = Some (user ME None true) ∧
  result_of (migrate_skip_output 0 (Some T) (Some X)) idle = Ret false.
Proof.
  split; [reflexivity|].
  apply (skip_output_no_migration idle 0 T (user ME None true));
    reflexivity.
Defined.

(** Seen from [DEST], with [T] not connected there yet: suppress. *)
Lemma skip_output_inbound_witness :
  active_migration (world_at_dest false (Some B)) (Some T)
    = Some (user DEST (Some MIG) false, record (Some B)) ∧
  ∃ b, result_of (migrate_skip_output 0 (Some T) (Some Y))
         (world_at_dest false (Some B)) = Ret b ∧
       (b = true ↔ false = false).
Proof.
  split; [reflexivity|].
  apply (skip_output_inbound (world_at_dest false (Some B)) 0 (Some T)
           (user DEST (Some MIG) false) (record (Some B)) Y);
    reflexivity.
Defined.

(** [furthest_ack = DEST]: suppress. *)
Lemma skip_output_all_acked_witness :
  active_migration (world (Some DEST)) (Some T)
    = Some (migrant, record (Some DEST)) ∧
  result_of (migrate_skip_output 0 (Some T) (Some X)) (world (Some DEST))
    = Ret true.
Proof.
  split; [reflexivity|].
  apply (skip_output_all_acked (world (Some DEST)) 0 (Some T) migrant
           (record (Some DEST)) DEST X); done.
Defined.

(** [furthest_ack = A], so [next_ack] is [B]: a message from [X], behind
    [B], is produced; a message from [Y], off [ME], is suppressed. *)
Lemma skip_output_next_ack_witness :
  path_to_me 4 (world (Some A)) DEST = Some [DEST; B; A] ∧
  path_to_me 4 (world (Some A)) X = Some [X; B; A] ∧
  path_to_me 4 (world (Some A)) Y = Some [Y] ∧
  result_of (migrate_skip_output 4 (Some T) (Some X)) (world (Some A))
    = Ret false ∧
  result_of (migrate_skip_output 4 (Some T) (Some Y)) (world (Some A))
    = Ret true.
Proof.
  split; [reflexivity|]. split; [reflexivity|]. split; [reflexivity|]. split.
  - destruct (skip_output_next_ack (world (Some A)) 4 (Some T) migrant
                (record (Some A)) DEST A X 4 [DEST; B; A] 4 [X; B; A])
      as (n & Hn & Hon & _);
      [reflexivity|reflexivity|done|reflexivity|reflexivity
      |by repeat constructor|done|reflexivity|simpl; lia|simpl; lia|].
    assert (B = n) as <-.
    { apply Hn. split; [by repeat constructor|reflexivity]. }
    apply Hon. by repeat constructor.
  - destruct (skip_output_next_ack (world (Some A)) 4 (Some T) migrant
                (record (Some A)) DEST A Y 4 [DEST; B; A] 4 [Y])
      as (n & Hn & _ & Hoff);
      [reflexivity|reflexivity|done|reflexivity|reflexivity
      |by repeat constructor|done|reflexivity|simpl; lia|simpl; lia|].
    assert (B = n) as <-.
    { apply Hn. split; [by repeat constructor|reflexivity]. }
    apply Hoff. intros [=]%list_elem_of_singleton.
Defined.

(** [furthest_ack = X], a node off the direct path: step 1 finds nothing. *)
Lemma skip_output_logic_error_witness :
  path_to_me 4 (world (Some X)) DEST = Some [DEST; B; A] ∧
  first_child_of (world (Some X)) (Some X) [DEST; B; A] = None ∧
  result_of (migrate_skip_output 4 (Some T) (Some Y)) (world (Some X))
    = Ret false.
Proof.
  split; [reflexivity|]. split; [reflexivity|].
  apply (skip_output_logic_error (world (Some X)) 4 (Some T) migrant
           (record (Some X)) DEST X 4 [DEST; B; A] (Some Y));
    [reflexivity|reflexivity|done|reflexivity|done|reflexivity
    |by apply first_child_of_None|simpl; lia].
Defined.

(** ME-A-B-DEST, the flip sent and not acked by anyone, a message that
    starts at ME: the code suppresses. *)
Example skip_output_flip_sent_source_me :
  result_of (migrate_skip_output 4 (Some T) (Some ME)) (world (Some ME))
    = Ret true.
Proof. reflexivity. Qed.

(** The same call under any iteration bound: cut off or true, never false. *)
Lemma skip_output_flip_sent_never_false fuel :
  result_of (migrate_skip_output fuel (Some T) (Some ME)) (world (Some ME))
    ≠ Ret false.
Proof.
  do 4 (destruct fuel as [|fuel]; [by vm_compute|]).
  unfold result_of.
  rewrite (skip_output_general (world (Some ME)) _ (Some T) migrant
             (record (Some ME)) DEST ME ME 4 [DEST; B; A] 1 []);
    [done|reflexivity|reflexivity|done|reflexivity|done
    |reflexivity|reflexivity|simpl; lia|simpl; lia].
Qed.

(** Claim C3 as the spec states it ("no hop has acked, so produce for
    every source") fails: there is an outbound migration with
    [furthest_ack_p == &me] and a source for which the function does not
    return false, whatever the iteration bound. *)
Lemma skip_output_no_ack_counterexample :
  ¬ (∀ w target_p tgt mig d s,
       active_migration w target_p = Some (tgt, mig) →
       destination_p mig = Some d → d ≠ me w →
       furthest_ack_p mig = Some (me w) →
       is_Some (clients w !! s) →
       ∃ fuel,
         result_of (migrate_skip_output fuel target_p (Some s)) w = Ret false).
Proof.
  intros Hclaim.
  destruct (Hclaim (world (Some ME)) (Some T) migrant (record (Some ME)) DEST ME)
    as [fuel Hfuel]; [reflexivity|reflexivity|done|reflexivity|by eexists|].
  by apply (skip_output_flip_sent_never_false fuel).
Qed.

(** The flip not sent: produce, whatever the source. The flip sent and not
    acked, so [next_ack] is [A]: a message from [X], behind [A], is produced;
    messages from [Y] and from [ME] itself are suppressed. *)
Lemma skip_output_no_ack_witness :
  (∀ source_p,
     result_of (migrate_skip_output 4 (Some T) source_p) (world None)
       = Ret false) ∧
  result_of (migrate_skip_output 4 (Some T) (Some X)) (world (Some ME))
    = Ret false ∧
  result_of (migrate_skip_output 4 (Some T) (Some Y)) (world (Some ME))
    = Ret true ∧
  result_of (migrate_skip_output 4 (Some T) (Some ME)) (world (Some ME))
    = Ret true.
Proof.
  split.
  - apply (skip_output_no_ack (world None) 4 (Some T) migrant (record None) DEST);
      [reflexivity|reflexivity|done|reflexivity].
  - destruct (skip_output_no_ack (world (Some ME)) 4 (Some T) migrant
                (record (Some ME)) DEST) as [_ Hme];
      [reflexivity|reflexivity|done|].
    destruct (Hme eq_refl 4 [DEST; B; A]) as (n & Hn & Hwalk & Hself);
      [reflexivity|simpl; lia|].
    assert (A = n) as <-.
    { apply Hn. split; [by repeat constructor|reflexivity]. }
    split; [|split; [|exact Hself]].
    + rewrite (Hwalk X 4 [X; B; A]); [reflexivity|reflexivity|simpl; lia].
    + rewrite (Hwalk Y 4 [Y]); [reflexivity|reflexivity|simpl; lia].
Defined.

(** [Y] is a server without a migration record. *)
Lemma migration_resume_rejects_witness :
  clients (world (Some A)) !! Y = Some (node ME) ∧
  migration_resume (Some Y) (Some X) (world (Some A))
    = (Ret tt, world (Some A)).
Proof.
  split; [reflexivity|].
  apply migration_resume_rejects. right. right.
  exists Y, (node ME). by repeat split.
Defined.

(** The scenario tree is rooted at [ME] and its pointers are valid. *)
Lemma migrate_skip_output_terminates_witness :
  rooted_tree (world (Some A)) ∧ valid_pointers (world (Some A)) ∧
  halts (λ fuel, migrate_skip_output fuel (Some T) (Some X)) (world (Some A)) ∧
  returns_eventually (λ fuel, migrate_skip_output fuel (Some T) (Some X))
    (world (Some A)).
Proof.
  assert (rooted_tree (world (Some A))) as Htree.
  { apply (rooted_tree_intro 4); [reflexivity|].
    apply (bool_decide_unpack _). by vm_compute. }
  assert (valid_pointers (world (Some A))) as Hptr.
  { apply valid_pointers_intro; apply (bool_decide_unpack _); by vm_compute. }
  destruct (migrate_skip_output_terminates (world (Some A)) (Some T) (Some X)
              Htree) as (Hhalt & _ & _ & Hret).
  split; [done|]. split; [done|]. split; [done|].
  apply Hret; [done| |]; intros a [= <-]; by eexists.
Defined.

(** ** The further properties, on the scenario tree *)

Ltac off_list :=
  let H := fresh in
  intros H; repeat (apply elem_of_cons in H as [?|H]; [done|]);
  by apply elem_of_nil in H.

(** [furthest_ack = A]: a message from [X] enters the direct path at [B],
    which has not acked; a message from [Y] enters it at [ME]. *)
Lemma skip_output_entry_acked_witness :
  entry_node (world (Some A)) [DEST; B; A] [X; B; A] = B ∧
  entry_node (world (Some A)) [DEST; B; A] [Y] = ME ∧
  acked_nodes (world (Some A)) (Some A) [DEST; B; A] = [A; ME] ∧
  result_of (migrate_skip_output 4 (Some T) (Some X)) (world (Some A))
    = Ret false ∧
  result_of (migrate_skip_output 4 (Some T) (Some Y)) (world (Some A))
    = Ret true.
Proof.
  split; [reflexivity|]. split; [reflexivity|]. split; [reflexivity|]. split.
  - rewrite (skip_output_entry_acked (world (Some A)) 4 (Some T) migrant
               (record (Some A)) DEST X 4 [DEST; B; A] 4 [X; B; A]);
      [reflexivity|reflexivity|reflexivity|done|reflexivity|reflexivity
      | |simpl; lia|simpl; lia].
    intros f [= <-]. left. by repeat constructor.
  - rewrite (skip_output_entry_acked (world (Some A)) 4 (Some T) migrant
               (record (Some A)) DEST Y 4 [DEST; B; A] 4 [Y]);
      [reflexivity|reflexivity|reflexivity|done|reflexivity|reflexivity
      | |simpl; lia|simpl; lia].
    intros f [= <-]. left. by repeat constructor.
Defined.

(** A message from [Y] is suppressed once [A] has acked, and stays
    suppressed when [B] has acked too. *)
Lemma skip_output_ack_monotone_witness :
  result_of (migrate_skip_output 4 (Some T) (Some Y)) (world (Some A))
    = Ret true ∧
  result_of (migrate_skip_output 4 (Some T) (Some Y)) (world (Some B))
    = Ret true.
Proof.
  split; [reflexivity|].
  apply (skip_output_ack_monotone (world (Some A)) (world (Some B)) 4 (Some T)
           migrant migrant (record (Some A)) (record (Some B)) DEST Y
           4 [DEST; B; A] 4 [Y] B);
    [reflexivity|reflexivity|reflexivity|reflexivity|reflexivity|reflexivity
    |done|reflexivity|reflexivity|reflexivity|left; by repeat constructor
    | |simpl; lia|simpl; lia|reflexivity].
  intros f [= <-]. by repeat constructor.
Defined.

(** [furthest_ack = B]: a message from [X] is suppressed, and so is one
    from [B], which is on the way from [X]. *)
Lemma skip_output_upstream_witness :
  result_of (migrate_skip_output 4 (Some T) (Some X)) (world (Some B))
    = Ret true ∧
  result_of (migrate_skip_output 4 (Some T) (Some B)) (world (Some B))
    = Ret true.
Proof.
  split; [reflexivity|].
  apply (skip_output_upstream (world (Some B)) 4 (Some T) migrant
           (record (Some B)) DEST X B 4 [DEST; B; A] 4 [X; B; A]);
    [reflexivity|reflexivity|reflexivity|reflexivity|by repeat constructor
    |simpl; lia|simpl; lia|reflexivity].
Defined.

(** [furthest_ack = X], off the direct path: the logic-error exit. *)
Lemma find_next_ack_logic_error_iff_witness :
  find_next_ack 4 (record (Some X)) (Some DEST) (world (Some X))
    = (Ret LogicError, world (Some X)).
Proof.
  apply (find_next_ack_logic_error_iff (world (Some X)) 4 (record (Some X))
           DEST X 4 [DEST; B; A]);
    [reflexivity|done|reflexivity|done|simpl; lia|].
  split; [done|off_list].
Defined.

(** The scenario tree against a state with other tokens, no [client_p] and
    four more clients off the walks: the same answer. *)
Lemma skip_output_footprint_witness :
  result_of (migrate_skip_output 4 (Some T) (Some X))
    (mkWorld ME Faulty.tree
       {[ MIG := mkMigration None (Some DEST) (Some A) 0 0 ]}) =
  result_of (migrate_skip_output 4 (Some T) (Some X)) (world (Some A)).
Proof.
  apply (skip_output_footprint (world (Some A))
           (mkWorld ME Faulty.tree
              {[ MIG := mkMigration None (Some DEST) (Some A) 0 0 ]})
           4 (Some T) migrant migrant (record (Some A))
           (mkMigration None (Some DEST) (Some A) 0 0) DEST X
           4 [DEST; B; A] 4 [X; B; A]);
    [reflexivity|reflexivity|reflexivity|reflexivity|reflexivity|done
    |reflexivity|reflexivity|reflexivity| |simpl; lia|simpl; lia].
  intros x Hx.
  repeat (apply elem_of_cons in Hx as [->|Hx]; [reflexivity|]).
  by apply elem_of_nil in Hx.
Defined.

(** A message from [L1], one of two servers that point at each other. *)
Lemma skip_output_source_loop_witness :
  stays_in (Faulty.world (Some A)) [Faulty.L1; Faulty.L2] = true ∧
  ∀ fuel,
    result_of (migrate_skip_output fuel (Some T) (Some Faulty.L1))
      (Faulty.world (Some A)) = OutOfFuel.
Proof.
  split; [reflexivity|].
  apply (skip_output_source_loop (Faulty.world (Some A)) (Some T) migrant
           (record (Some A)) DEST A 4 [DEST; B; A] B [Faulty.L1; Faulty.L2]);
    [reflexivity|reflexivity|done|reflexivity|done|reflexivity|reflexivity
    |reflexivity|off_list|off_list|by repeat constructor].
Defined.

(** A migration whose destination is [L1]. *)
Lemma skip_output_destination_loop_witness :
  stays_in (Faulty.lost_destination (Some A)) [Faulty.L1; Faulty.L2] = true ∧
  ∀ fuel,
    result_of (migrate_skip_output fuel (Some T) (Some X))
      (Faulty.lost_destination (Some A)) = OutOfFuel.
Proof.
  split; [reflexivity|].
  apply (skip_output_destination_loop (Faulty.lost_destination (Some A))
           (Some T) migrant
           (mkMigration (Some T) (Some Faulty.L1) (Some A) 17 42)
           Faulty.L1 A [Faulty.L1; Faulty.L2]);
    [reflexivity|reflexivity|reflexivity|done|reflexivity|off_list
    |by repeat constructor|reflexivity].
Defined.

(** A message from [BEHIND], whose parent [ORPHAN] has a NULL [servptr]. *)
Lemma skip_output_source_orphan_witness :
  follow (Faulty.world (Some A)) Faulty.BEHIND [Faulty.ORPHAN]
    = Some Faulty.ORPHAN ∧
  clients (Faulty.world (Some A)) !! Faulty.ORPHAN
    = Some (mkClient None None false) ∧
  result_of (migrate_skip_output 4 (Some T) (Some Faulty.BEHIND))
    (Faulty.world (Some A)) = Fault.
Proof.
  split; [reflexivity|]. split; [reflexivity|].
  apply (skip_output_source_orphan (Faulty.world (Some A)) 4 (Some T) migrant
           (record (Some A)) DEST A 4 [DEST; B; A] B
           Faulty.BEHIND [Faulty.ORPHAN] Faulty.ORPHAN
           (mkClient None None false));
    [reflexivity|reflexivity|done|reflexivity|done|reflexivity|reflexivity
    |reflexivity|reflexivity|reflexivity|off_list|off_list
    |simpl; lia|simpl; lia].
Defined.

